(** * Report chat page (static/script_report.js)

    A shallow embedding of the report page script: the filename resolver
    [parseFilenameFromDisposition], the message log [addMessage], the
    credential modal ([openCredentialModal], [onSubmit], [onCancel],
    [keyHandler], [closeModal]), the home button ([ensureHomeButton]) and
    the landing view ([initReportChat]), with the page state passed
    explicitly and the event loop as a step function over user and network
    events. *)

From Stdlib Require Import NArith String Ascii Lia Bool DecimalString.
From stdpp Require Import base option list.

Open Scope N_scope.

(** ** JavaScript strings

    A JavaScript string is a sequence of UTF-16 code units. *)

Definition jsstring := list N.

(** The code units of an ASCII literal. *)
Definition js (s : string) : jsstring :=
  map N_of_ascii (list_ascii_of_string s).

Definition c_quote : N := 34.     (* the double quote *)
Definition c_percent : N := 37.
Definition c_semi : N := 59.
Definition c_newline : N := 10.
Definition c_lt : N := 60.
Definition c_gt : N := 62.
Definition c_slash : N := 47.
Definition c_amp : N := 38.

Fixpoint jsstring_eqb (a b : jsstring) : bool :=
  match a, b with
  | [], [] => true
  | x :: a', y :: b' => (x =? y) && jsstring_eqb a' b'
  | _, _ => false
  end.

(** ToBoolean on a string: the empty string is falsy. *)
Definition truthy (s : jsstring) : bool :=
  match s with [] => false | _ => true end.

(** Exceptions the script can meet. The message texts of the two built-in
    errors are those of V8. *)
Inductive exn :=
| URIError                      (* decodeURIComponent on a malformed escape *)
| TypeErrorNull                 (* property read on null *)
| HostError (name message : jsstring). (* a rejection or exception of the host *)

Definition exn_message (e : exn) : jsstring :=
  match e with
  | URIError => js "URI malformed"
  | TypeErrorNull => js "Cannot read properties of null (reading 'error')"
  | HostError _ m => m
  end.

(** [err.message || err], as the catch block of onSubmit concatenates it:
    the message, or the error converted to a string when the message is
    empty (then its name alone). *)
Definition exn_text (e : exn) : jsstring :=
  if truthy (exn_message e) then exn_message e
  else match e with
       | URIError => js "URIError"
       | TypeErrorNull => js "TypeError"
       | HostError n _ => n
       end.

Inductive completion (A : Type) :=
| Normal (a : A)
| Throw (e : exn).
Arguments Normal {A} a.
Arguments Throw {A} e.

Definition completion_map {A B} (f : A -> B) (c : completion A)
  : completion B :=
  match c with
  | Normal a => Normal (f a)
  | Throw e => Throw e
  end.

(** ** Built-ins: trim, toLowerCase, decodeURIComponent, match *)

(** WhiteSpace and LineTerminator code units, as String.prototype.trim
    strips them. *)
Definition is_js_space (c : N) : bool :=
  (c =? 9) || (c =? 10) || (c =? 11) || (c =? 12) || (c =? 13) || (c =? 32)
  || (c =? 160) || (c =? 5760) || ((8192 <=? c) && (c <=? 8202))
  || (c =? 8232) || (c =? 8233) || (c =? 8239) || (c =? 8287)
  || (c =? 12288) || (c =? 65279).

Fixpoint trim_start (s : jsstring) : jsstring :=
  match s with
  | c :: t => if is_js_space c then trim_start t else s
  | [] => []
  end.

Definition trim (s : jsstring) : jsstring :=
  rev (trim_start (rev (trim_start s))).

(** toLowerCase, on the ASCII letters. No code unit outside A-Z lowercases
    to a letter of the word the script looks for, so the test for the
    word download is decided by the ASCII letters alone. *)
Definition to_lower_unit (c : N) : N :=
  if (65 <=? c) && (c <=? 90) then c + 32 else c.

Definition toLowerCase (s : jsstring) : jsstring := map to_lower_unit s.

Fixpoint strip_prefix (p s : jsstring) : option jsstring :=
  match p, s with
  | [], _ => Some s
  | x :: p', y :: s' => if x =? y then strip_prefix p' s' else None
  | _ :: _, [] => None
  end.

Fixpoint includes (s needle : jsstring) : bool :=
  match strip_prefix needle s with
  | Some _ => true
  | None => match s with [] => false | _ :: t => includes t needle end
  end.

(** *** decodeURIComponent

    The Decode operation of ECMA-262 with an empty set of preserved
    escapes. It reads the [%XX] escapes ([escapes]) and then the UTF-8
    sequences they spell ([utf8]); every failure is the same URIError. *)

Definition hexval (c : N) : option N :=
  if (48 <=? c) && (c <=? 57) then Some (c - 48)
  else if (65 <=? c) && (c <=? 70) then Some (c - 55)
  else if (97 <=? c) && (c <=? 102) then Some (c - 87)
  else None.

Definition ParseHexOctet (h1 h2 : N) : option N :=
  match hexval h1, hexval h2 with
  | Some a, Some b => Some (16 * a + b)
  | _, _ => None
  end.

Inductive token :=
| Unit (c : N)      (* a code unit copied as it is *)
| Octet (b : N).    (* the value of an escape *)

Fixpoint escapes (s : jsstring) : option (list token) :=
  match s with
  | [] => Some []
  | c :: t =>
      if c =? c_percent then
        match t with
        | h1 :: h2 :: t' =>
            match ParseHexOctet h1 h2 with
            | Some b => cons (Octet b) <$> escapes t'
            | None => None
            end
        | _ => None
        end
      else cons (Unit c) <$> escapes t
  end.

Definition is_cont (b : N) : bool := (128 <=? b) && (b <=? 191).

Definition UTF16EncodeCodePoint (v : N) : jsstring :=
  if v <? 65536 then [v]
  else [55296 + (v - 65536) / 1024; 56320 + (v - 65536) mod 1024].

Fixpoint utf8 (ts : list token) : option jsstring :=
  match ts with
  | [] => Some []
  | Unit c :: r => cons c <$> utf8 r
  | Octet b :: r =>
      if b <? 128 then cons b <$> utf8 r
      else if b <? 192 then None
      else if b <? 224 then
        match r with
        | Octet b1 :: r' =>
            let v := (b - 192) * 64 + (b1 - 128) in
            if is_cont b1 && (128 <=? v)
            then app (UTF16EncodeCodePoint v) <$> utf8 r'
            else None
        | _ => None
        end
      else if b <? 240 then
        match r with
        | Octet b1 :: Octet b2 :: r' =>
            let v := (b - 224) * 4096 + (b1 - 128) * 64 + (b2 - 128) in
            if is_cont b1 && is_cont b2 && (2048 <=? v)
               && negb ((55296 <=? v) && (v <=? 57343))
            then app (UTF16EncodeCodePoint v) <$> utf8 r'
            else None
        | _ => None
        end
      else if b <? 248 then
        match r with
        | Octet b1 :: Octet b2 :: Octet b3 :: r' =>
            let v := (b - 240) * 262144 + (b1 - 128) * 4096
                     + (b2 - 128) * 64 + (b3 - 128) in
            if is_cont b1 && is_cont b2 && is_cont b3
               && (65536 <=? v) && (v <=? 1114111)
            then app (UTF16EncodeCodePoint v) <$> utf8 r'
            else None
        | _ => None
        end
      else None
  end.

Definition decodeURIComponent (s : jsstring) : completion jsstring :=
  match escapes s ≫= utf8 with
  | Some r => Normal r
  | None => Throw URIError
  end.

(** *** Regular expressions

    The three patterns of the resolver are sequences of literal text and
    one capture group of the shape [([^c]+)]. [exec_here] matches such a
    pattern at the start of a string, the group greedy with backtracking
    (longest run first); [String_match] is [String.prototype.match] for a
    pattern without the g flag: the leftmost position that matches, and the
    captures there. *)

Inductive item :=
| Lit (l : jsstring)     (* literal code units *)
| CapNot (c : N).        (* ([^c]+) *)

Definition regex := list item.

(** The ways to split [s] into a non-empty run of units other than [c]
    and the rest, the longest run first. *)
Fixpoint runs (c : N) (s : jsstring) : list (jsstring * jsstring) :=
  match s with
  | [] => []
  | x :: t =>
      if x =? c then []
      else map (fun gt => (x :: fst gt, snd gt)) (runs c t) ++ [([x], t)]
  end.

Fixpoint first_some {A B} (f : A -> option B) (l : list A) : option B :=
  match l with
  | [] => None
  | a :: l' => match f a with Some b => Some b | None => first_some f l' end
  end.

Fixpoint exec_here (r : regex) (s : jsstring) : option (list jsstring) :=
  match r with
  | [] => Some []
  | Lit l :: r' =>
      match strip_prefix l s with
      | Some t => exec_here r' t
      | None => None
      end
  | CapNot c :: r' =>
      first_some (fun gt => cons (fst gt) <$> exec_here r' (snd gt)) (runs c s)
  end.

Fixpoint String_match (r : regex) (s : jsstring) : option (list jsstring) :=
  match exec_here r s with
  | Some caps => Some caps
  | None => match s with [] => None | _ :: t => String_match r t end
  end.

(** The longest prefix of units other than [c]: what a greedy [[^c]+]
    takes when nothing makes it give units back. *)
Fixpoint run_of (c : N) (s : jsstring) : jsstring :=
  match s with
  | x :: t => if x =? c then [] else x :: run_of c t
  | [] => []
  end.

(** [match && match[1]]: the first capture when there is a match and the
    capture is truthy. *)
Definition group1 (m : option (list jsstring)) : option jsstring :=
  match m with
  | Some (g :: _) => if truthy g then Some g else None
  | _ => None
  end.

(** ** parseFilenameFromDisposition *)

(** /filename\*=UTF-8''([^;]+)/ *)
Definition re_extended : regex := [Lit (js "filename*=UTF-8''"); CapNot c_semi].
(** /filename=Q([^Q]+)Q/, where Q stands for the double quote *)
Definition re_quoted : regex :=
  [Lit (js "filename=" ++ [c_quote]); CapNot c_quote; Lit [c_quote]].
(** /filename=([^;]+)/ *)
Definition re_bare : regex := [Lit (js "filename="); CapNot c_semi].

(** The argument is [None] for null (the header is absent). *)
Definition parseFilenameFromDisposition (disposition : option jsstring)
  : completion (option jsstring) :=
  match disposition with
  | None => Normal None
  | Some d =>
      if negb (truthy d) then Normal None
      else
        match group1 (String_match re_extended d) with
        | Some v => completion_map Some (decodeURIComponent v)
        | None =>
            match group1 (String_match re_quoted d) with
            | Some v => Normal (Some v)
            | None =>
                match group1 (String_match re_bare d) with
                | Some v => Normal (Some v)
                | None => Normal None
                end
            end
        end
  end.

(** [defaultFormat === "xlsx" ? "report.xlsx" : "report.csv"] *)
Definition default_name (defaultFormat : jsstring) : jsstring :=
  if jsstring_eqb defaultFormat (js "xlsx") then js "report.xlsx"
  else js "report.csv".

(** The name onSubmit saves under: the resolved one, or the default when
    the resolver gives a falsy value. *)
Definition resolve_filename (disposition : option jsstring)
    (defaultFormat : jsstring) : completion jsstring :=
  match parseFilenameFromDisposition disposition with
  | Normal (Some f) => Normal (if truthy f then f else default_name defaultFormat)
  | Normal None => Normal (default_name defaultFormat)
  | Throw e => Throw e
  end.


(** Number to string, for the status in a template literal. *)
Definition Number_toString (n : N) : jsstring :=
  match n with
  | 0 => js "0"
  | _ => js (DecimalString.NilEmpty.string_of_uint (N.to_uint n))
  end.

(** ** The page *)

Inductive sender := bot | user.

(** [style.display] of the elements the script shows and hides. *)
Inductive display := d_unset | d_none | d_inline_block.

Definition shown (d : display) : bool :=
  match d with d_none => false | _ => true end.

(** The children of #chat-body: a message div with its class and the
    markup assigned to its innerHTML, or the div.report-action holding
    #reportDownloadBtn (with the display of that button) and the hint. *)
Inductive node :=
| Message (cls : sender) (innerHTML : jsstring)
| ReportAction (btn_display : display).

(** One modal built by openCredentialModal: the argument and the elements
    its closures hold. *)
Record modal := Modal {
  defaultFormat : jsstring;
  cred_user : jsstring;          (* usernameInput.value *)
  cred_pass : jsstring;          (* passwordInput.value *)
  cred_error : jsstring;         (* errorDiv.textContent *)
  submit_disabled : bool;
  cancel_disabled : bool;
  submit_text : jsstring;
  submit_listener : bool;        (* onSubmit registered for click on submitBtn *)
  cancel_listener : bool         (* onCancel registered for click on cancelBtn *)
}.

(** A request in flight: the modal whose onSubmit awaits it, and the body
    sent. *)
Record request := Request {
  rq_modal : nat;
  rq_username : jsstring;
  rq_password : jsstring;
  rq_format : jsstring
}.

(** What the script does to the world outside the page state. *)
Inductive effect :=
| Fetch (rq : request)                          (* POST /api/report *)
| CreateObjectURL (url : nat) (bytes : list N)
| AnchorClick (url : nat) (download : jsstring)
| RevokeObjectURL (url : nat)
| FocusUsername (m : nat)                       (* usernameInput.focus() *)
| ConsoleWarn (msg : jsstring)
| ConsoleError (msg : jsstring).

Record state := State {
  isLanding : bool;
  chatBody : list node;
  homeBtn : option display;      (* #homeBtnReport, once created *)
  modals : list modal;           (* every modal built, by instance number *)
  overlays : list nat;           (* the #cred-modal-overlay elements in the
                                    document, in document order *)
  anchors : list (nat * jsstring); (* download anchors in the body: href, download *)
  userInput : jsstring;          (* #userInput.value *)
  pending : list request;        (* fetches not yet settled *)
  urls : nat;                    (* object URLs created so far *)
  trace : list effect
}.

Definition set_isLanding (b : bool) (st : state) : state :=
  State b (chatBody st) (homeBtn st) (modals st) (overlays st) (anchors st)
        (userInput st) (pending st) (urls st) (trace st).
Definition set_chatBody (c : list node) (st : state) : state :=
  State (isLanding st) c (homeBtn st) (modals st) (overlays st) (anchors st)
        (userInput st) (pending st) (urls st) (trace st).
Definition set_homeBtn (h : option display) (st : state) : state :=
  State (isLanding st) (chatBody st) h (modals st) (overlays st) (anchors st)
        (userInput st) (pending st) (urls st) (trace st).
Definition set_modals (ms : list modal) (st : state) : state :=
  State (isLanding st) (chatBody st) (homeBtn st) ms (overlays st) (anchors st)
        (userInput st) (pending st) (urls st) (trace st).
Definition set_overlays (os : list nat) (st : state) : state :=
  State (isLanding st) (chatBody st) (homeBtn st) (modals st) os (anchors st)
        (userInput st) (pending st) (urls st) (trace st).
Definition set_anchors (a : list (nat * jsstring)) (st : state) : state :=
  State (isLanding st) (chatBody st) (homeBtn st) (modals st) (overlays st) a
        (userInput st) (pending st) (urls st) (trace st).
Definition set_userInput (v : jsstring) (st : state) : state :=
  State (isLanding st) (chatBody st) (homeBtn st) (modals st) (overlays st)
        (anchors st) v (pending st) (urls st) (trace st).
Definition set_pending (p : list request) (st : state) : state :=
  State (isLanding st) (chatBody st) (homeBtn st) (modals st) (overlays st)
        (anchors st) (userInput st) p (urls st) (trace st).
Definition set_urls (n : nat) (st : state) : state :=
  State (isLanding st) (chatBody st) (homeBtn st) (modals st) (overlays st)
        (anchors st) (userInput st) (pending st) n (trace st).
Definition emit (e : effect) (st : state) : state :=
  State (isLanding st) (chatBody st) (homeBtn st) (modals st) (overlays st)
        (anchors st) (userInput st) (pending st) (urls st) (trace st ++ [e]).

(** Assignments to the elements of modal [m]; they reach the elements
    through the closure, whether or not the overlay is still in the
    document. *)
Definition upd_modal (m : nat) (f : modal -> modal) (st : state) : state :=
  set_modals (alter f m (modals st)) st.

Definition with_user (v : jsstring) (md : modal) : modal :=
  Modal (defaultFormat md) v (cred_pass md) (cred_error md)
        (submit_disabled md) (cancel_disabled md) (submit_text md)
        (submit_listener md) (cancel_listener md).
Definition with_pass (v : jsstring) (md : modal) : modal :=
  Modal (defaultFormat md) (cred_user md) v (cred_error md)
        (submit_disabled md) (cancel_disabled md) (submit_text md)
        (submit_listener md) (cancel_listener md).
Definition with_error (v : jsstring) (md : modal) : modal :=
  Modal (defaultFormat md) (cred_user md) (cred_pass md) v
        (submit_disabled md) (cancel_disabled md) (submit_text md)
        (submit_listener md) (cancel_listener md).
(** submitBtn.disabled, cancelBtn.disabled and submitBtn.textContent,
    which the script always assigns together. *)
Definition with_buttons (dis : bool) (text : jsstring) (md : modal) : modal :=
  Modal (defaultFormat md) (cred_user md) (cred_pass md) (cred_error md)
        dis dis text (submit_listener md) (cancel_listener md).
Definition without_listeners (md : modal) : modal :=
  Modal (defaultFormat md) (cred_user md) (cred_pass md) (cred_error md)
        (submit_disabled md) (cancel_disabled md) (submit_text md)
        false false.

(** *** addMessage *)

(** [String(content).replace(/\n/g, "<br/>")]. The log keeps the markup
    assigned to innerHTML; what the browser builds from it is read with
    [tokenize]. An entry whose markup builds elements of its own can put
    ids of the script into the document, which the lookups by id below do
    not see ([log_inert] says of a log that it has no such entry). *)
Definition br_markup : jsstring := js "<br/>".

Definition replace_newlines (content : jsstring) : jsstring :=
  flat_map (fun c => if c =? c_newline then br_markup else [c]) content.

Definition addMessage (content : jsstring) (s : sender) (st : state) : state :=
  set_chatBody (chatBody st ++ [Message s (replace_newlines content)]) st.

(** *** ensureHomeButton

    The button is created hidden (display:none in its cssText). *)
Definition ensureHomeButton (st : state) : state :=
  match homeBtn st with
  | Some _ => st
  | None => set_homeBtn (Some d_none) st
  end.

(** [const hb = ensureHomeButton(); hb.style.display = d] *)
Definition home_display (d : display) (st : state) : state :=
  set_homeBtn (Some d) (ensureHomeButton st).

(** The closing lines of every path that leaves the landing view. *)
Definition reveal_home (st : state) : state :=
  set_isLanding false (home_display d_inline_block st).

(** *** The credential modal *)

Definition new_modal (fmt : jsstring) : modal :=
  Modal fmt [] [] [] false false (js "Download") true true.

(** [document.getElementById] of the overlay id finds the first overlay in
    the document, and the lookups of the cred- ids the elements of the
    overlay just appended, in a document where the log has built no
    element with these ids. The result is the overlay returned. *)
Definition openCredentialModal (fmt : jsstring) (st : state) : nat * state :=
  match overlays st with
  | m :: _ => (m, emit (ConsoleWarn (js "Modal already open")) st)
  | [] =>
      let m := length (modals st) in
      let st := set_modals (modals st ++ [new_modal fmt]) st in
      let st := set_overlays (overlays st ++ [m]) st in
      (m, emit (FocusUsername m) st)
  end.

Definition closeModal (m : nat) (st : state) : state :=
  let st := upd_modal m without_listeners st in
  set_overlays (filter (λ o, o ≠ m) (overlays st)) st.

Definition msg_cancelled : jsstring := js "Report download cancelled.".

Definition onCancel (m : nat) (st : state) : state :=
  let st := addMessage msg_cancelled bot st in
  let st := closeModal m st in
  reveal_home st.

Definition msg_enter_both : jsstring :=
  js "Please enter both username and password.".

(** onSubmit up to the point where it awaits the fetch. *)
Definition onSubmit (m : nat) (st : state) : state :=
  match modals st !! m with
  | None => st
  | Some md =>
      let st := upd_modal m (with_error []) st in
      let username := trim (cred_user md) in
      let password := cred_pass md in
      if negb (truthy username) || negb (truthy password) then
        let st := upd_modal m (with_error msg_enter_both) st in
        emit (FocusUsername m) st
      else
        let st := upd_modal m (with_buttons true (js "Downloading...")) st in
        let st := addMessage (js "Authenticating and preparing report...") bot st in
        let rq := Request m username password (defaultFormat md) in
        emit (Fetch rq) (set_pending (pending st ++ [rq]) st)
  end.

(** What the network and the host give back to one fetch. *)
(** A JavaScript value as the script looks at it: through ToBoolean (in
    [body.error || ...]) and through ToString (the assignment to
    textContent and the template literal). *)
Record js_value := JsValue {
  to_boolean : bool;
  to_string : jsstring
}.

(** A string value: truthy unless empty, and its own text. *)
Definition js_string (s : jsstring) : js_value := JsValue (truthy s) s.

(** The empty array: truthy, and the empty string as text. *)
Definition js_empty_array : js_value := JsValue true [].

Inductive json_body :=
| NotJson                               (* res.json() rejects *)
| JsonNull                              (* the body is the JSON null *)
| JsonValue (error : option js_value).  (* any other value, with its error
                                           member when it has one *)

Inductive outcome :=
| Rejected (e : exn)                    (* fetch rejects: no response *)
| Failure (status : N) (body : json_body)   (* res.ok is false *)
| Success (blob : completion (list N))  (* res.blob(): the bytes, or a rejection *)
          (disposition : option jsstring)   (* res.headers.get *)
          (click : option exn).         (* the exception of a.click(), if any *)

Definition msg_console_error : jsstring := js "Error fetching report:".

Definition msg_failed : jsstring :=
  [10060] ++ js " Failed to download report. See console for details.".

Definition catch_block (m : nat) (err : exn) (st : state) : state :=
  let st := emit (ConsoleError msg_console_error) st in
  let st := upd_modal m (with_error (js "Network error: " ++ exn_text err)) st in
  let st := addMessage msg_failed bot st in
  let st := upd_modal m (with_buttons false (js "Download")) st in
  reveal_home st.

Definition msg_downloaded (filename : jsstring) : jsstring :=
  [9989] ++ js " Report " ++ [c_quote] ++ filename ++ [c_quote]
  ++ js " downloaded successfully!".

(** The rest of onSubmit, from the settlement of its fetch. The awaits of
    res.json() and res.blob() assign nothing before they resume, so the
    whole rest runs as one step, at the time of the last of them. *)
Definition resume (rq : request) (o : outcome) (st : state) : state :=
  let m := rq_modal rq in
  match o with
  | Rejected e => catch_block m e st
  | Failure status body =>
      match body with
      | JsonNull => catch_block m TypeErrorNull st
      | _ =>
          let fallback := js "Server returned " ++ Number_toString status in
          let errMsg :=
            match body with
            | JsonValue (Some error) =>
                if to_boolean error then to_string error else fallback
            | _ => fallback
            end in
          let st := upd_modal m (with_error errMsg) st in
          let st := addMessage ([9888; 65039] ++ js " " ++ errMsg) bot st in
          let st := upd_modal m (with_buttons false (js "Download")) st in
          reveal_home st
      end
  | Success blob disposition click =>
      match blob with
      | Throw e => catch_block m e st
      | Normal bytes =>
          match resolve_filename disposition (rq_format rq) with
          | Throw e => catch_block m e st
          | Normal filename =>
              let url := urls st in
              let st := emit (CreateObjectURL url bytes) (set_urls (S url) st) in
              let st := set_anchors (anchors st ++ [(url, filename)]) st in
              let st := emit (AnchorClick url filename) st in
              match click with
              | Some e => catch_block m e st
              | None =>
                  let st := set_anchors (filter (λ a, a.1 ≠ url) (anchors st)) st in
                  let st := emit (RevokeObjectURL url) st in
                  let st := closeModal m st in
                  let st := addMessage (msg_downloaded filename) bot st in
                  reveal_home st
              end
          end
      end
  end.

Inductive key := Enter | Escape | OtherKey.

Definition keyHandler (m : nat) (k : key) (st : state) : state :=
  match k with
  | Enter => onSubmit m st
  | Escape => onCancel m st
  | OtherKey => st
  end.

(** *** The landing view and the typed commands *)

Definition msg_welcome : jsstring :=
  [55357; 56395] ++ js " Welcome to the Olyph AI Employee.".
Definition msg_opening : jsstring := js "Opening authentication modal...".
Definition msg_help : jsstring :=
  js "Type 'download' or click the Download Report button to begin.".

Definition is_action (n : node) : bool :=
  match n with ReportAction _ => true | Message _ _ => false end.

(** [chatBody.querySelector(".report-action")] and [existing.remove()] *)
Fixpoint remove_first_action (ns : list node) : list node :=
  match ns with
  | [] => []
  | n :: t => if is_action n then t else n :: remove_first_action t
  end.

Definition initReportChat (st : state) : state :=
  let st := set_isLanding true st in
  let st := home_display d_none st in
  let st := set_chatBody [] st in
  let st := addMessage msg_welcome bot st in
  let st := set_chatBody (remove_first_action (chatBody st)) st in
  set_chatBody (chatBody st ++ [ReportAction d_unset]) st.

(** The click handler of the button built by initReportChat, for the
    button of the [i]-th child of #chat-body. *)
Definition on_download_click (i : nat) (st : state) : state :=
  let st := set_chatBody (<[i := ReportAction d_none]> (chatBody st)) st in
  let st := addMessage msg_opening bot st in
  let st := (openCredentialModal (js "csv") st).2 in
  reveal_home st.

(** [document.getElementById("reportDownloadBtn")] and the assignment to
    its display, when there is one. *)
Fixpoint hide_first_download_btn (ns : list node) : list node :=
  match ns with
  | [] => []
  | ReportAction _ :: t => ReportAction d_none :: t
  | n :: t => n :: hide_first_download_btn t
  end.

(** The click handler of #sendBtn. *)
Definition on_send (st : state) : state :=
  let msg := trim (userInput st) in
  if negb (truthy msg) then st
  else
    let st := addMessage msg user st in
    let st := set_userInput [] st in
    if includes (toLowerCase msg) (js "download") then
      let st := set_chatBody (hide_first_download_btn (chatBody st)) st in
      let st := addMessage msg_opening bot st in
      let st := (openCredentialModal (js "csv") st).2 in
      reveal_home st
    else addMessage msg_help bot st.

(** ** Events

    What the user and the network can do to the page. A click reaches its
    handler only when the target is in the document, displayed and not
    disabled, and the handler still registered; a keydown inside the
    overlay comes from whichever of its fields has the focus (the two
    inputs are never disabled). *)
Inductive event :=
| ClickDownload (i : nat)
| TypeInput (v : jsstring)
| ClickSend
| KeyPressInput (k : key) (shift : bool)
| TypeUsername (m : nat) (v : jsstring)
| TypePassword (m : nat) (v : jsstring)
| ClickSubmit (m : nat)
| ClickCancel (m : nat)
| KeyDown (m : nat) (k : key)
| ClickHome
| Settle (i : nat) (o : outcome).

Definition attached (m : nat) (st : state) : bool :=
  bool_decide (m ∈ overlays st).

Definition home_visible (st : state) : bool :=
  match homeBtn st with Some d => shown d | None => false end.

Definition step (e : event) (st : state) : state :=
  match e with
  | ClickDownload i =>
      match chatBody st !! i with
      | Some (ReportAction d) => if shown d then on_download_click i st else st
      | _ => st
      end
  | TypeInput v => set_userInput v st
  | ClickSend => on_send st
  | KeyPressInput k shift =>
      match k with
      | Enter => if negb shift then on_send st else st
      | _ => st
      end
  | TypeUsername m v =>
      if attached m st then upd_modal m (with_user v) st else st
  | TypePassword m v =>
      if attached m st then upd_modal m (with_pass v) st else st
  | ClickSubmit m =>
      match modals st !! m with
      | Some md =>
          if attached m st && negb (submit_disabled md) && submit_listener md
          then onSubmit m st else st
      | None => st
      end
  | ClickCancel m =>
      match modals st !! m with
      | Some md =>
          if attached m st && negb (cancel_disabled md) && cancel_listener md
          then onCancel m st else st
      | None => st
      end
  | KeyDown m k => if attached m st then keyHandler m k st else st
  | ClickHome => if home_visible st then initReportChat st else st
  | Settle i o =>
      match pending st !! i with
      | Some rq => resume rq o (set_pending (delete i (pending st)) st)
      | None => st
      end
  end.

Definition run (evs : list event) (st : state) : state :=
  fold_left (fun s e => step e s) evs st.

(** The page before the script runs (an empty #chat-body, no home button
    yet), and after its DOMContentLoaded handler, which ends with
    initReportChat. *)
Definition blank : state := State true [] None [] [] [] [] [] 0 [].
Definition page_loaded : state := initReportChat blank.

(** ** How the markup of a message is read

    The markup assigned to innerHTML goes through the HTML tokenizer. The
    model covers its data, tag open, end tag open, tag name and
    self-closing start tag states; where the tokenizer would leave them
    (character references, attributes, comments and declarations) or the
    input stream is rewritten before it (carriage return, NUL) the result
    is [None]. *)

Inductive html_token :=
| Character (c : N)
| StartTag (name : jsstring) (self_closing : bool)
| EndTag (name : jsstring).

Inductive tstate :=
| Data
| TagOpen
| EndTagOpen
| TagName (end_tag : bool) (name : jsstring)
| SelfClosingStartTag (end_tag : bool) (name : jsstring).

Definition is_alpha (c : N) : bool :=
  ((65 <=? c) && (c <=? 90)) || ((97 <=? c) && (c <=? 122)).

Definition is_html_space (c : N) : bool :=
  (c =? 9) || (c =? 10) || (c =? 12) || (c =? 32).

(** The units the data state does not pass on as they are. *)
Definition data_special (c : N) : bool :=
  (c =? c_amp) || (c =? 13) || (c =? 0).

Definition tag_token (end_tag : bool) (name : jsstring) (self_closing : bool)
  : html_token :=
  if end_tag then EndTag name else StartTag name self_closing.

(** One unit of input in one state: the tokens emitted and the next state. *)
Definition tstep (q : tstate) (c : N) : option (list html_token * tstate) :=
  match q with
  | Data =>
      if data_special c then None
      else if c =? c_lt then Some ([], TagOpen)
      else Some ([Character c], Data)
  | TagOpen =>
      if (c =? 33) || (c =? 63) then None
      else if c =? c_slash then Some ([], EndTagOpen)
      else if is_alpha c then Some ([], TagName false [to_lower_unit c])
      else (* the < was text; the unit is read again in the data state *)
        if data_special c then None
        else if c =? c_lt then Some ([Character c_lt], TagOpen)
        else Some ([Character c_lt; Character c], Data)
  | EndTagOpen =>
      if is_alpha c then Some ([], TagName true [to_lower_unit c])
      else if c =? c_gt then Some ([], Data)
      else None
  | TagName e name =>
      if is_html_space c || (c =? 0) then None
      else if c =? c_slash then Some ([], SelfClosingStartTag e name)
      else if c =? c_gt then Some ([tag_token e name false], Data)
      else Some ([], TagName e (name ++ [to_lower_unit c]))
  | SelfClosingStartTag e name =>
      if c =? c_gt then Some ([tag_token e name true], Data)
      else None
  end.

(** The tokens emitted at the end of the input. *)
Definition at_eof (q : tstate) : list html_token :=
  match q with
  | Data => []
  | TagOpen => [Character c_lt]
  | EndTagOpen => [Character c_lt; Character c_slash]
  | TagName _ _ | SelfClosingStartTag _ _ => []
  end.

Fixpoint tokenize (q : tstate) (s : jsstring) : option (list html_token) :=
  match s with
  | [] => Some (at_eof q)
  | c :: t =>
      match tstep q c with
      | Some (out, q') => app out <$> tokenize q' t
      | None => None
      end
  end.

(** The tokens of a text shown as it is, each line break a br element. *)
Definition literal_tokens (content : jsstring) : list html_token :=
  flat_map (fun c => if c =? c_newline then [StartTag (js "br") true]
                     else [Character c]) content.

(** ** Sample inputs *)

(** A header whose extended form carries a truncated escape. *)
Definition hdr_malformed : jsstring :=
  js "attachment; filename*=UTF-8''%E0%A4%A.csv".

(** The entry point is activated, credentials a and b are typed, and the
    submit button is clicked: one request is in flight. *)
Definition to_in_flight : list event :=
  [ClickDownload 1; TypeUsername 0 (js "a"); TypePassword 0 (js "b");
   ClickSubmit 0].

Definition in_flight : state := run to_in_flight page_loaded.

Definition the_request : request := Request 0 (js "a") (js "b") (js "csv").

Definition created (t : list effect) : list nat :=
  omap (fun e => match e with CreateObjectURL u _ => Some u | _ => None end) t.
Definition revoked (t : list effect) : list nat :=
  omap (fun e => match e with RevokeObjectURL u => Some u | _ => None end) t.
Definition fetched (t : list effect) : list request :=
  omap (fun e => match e with Fetch rq => Some rq | _ => None end) t.



(** ** Invariants of the page *)

(** The home button is visible exactly off the landing view. *)
Definition landing_view (st : state) : Prop :=
  home_visible st = negb (isLanding st).


(** ** The literal parts of the three patterns *)

Definition lit_extended : jsstring := js "filename*=UTF-8''".
Definition lit_quoted : jsstring := js "filename=" ++ [c_quote].
Definition lit_bare : jsstring := js "filename=".

(** The letter f, with which the three literals start. *)
Definition c_f : N := 102.

(** ** Conditions on events *)

(** The event is not a settlement whose save action throws. *)
Definition click_returns (e : event) : Prop :=
  match e with
  | Settle _ (Success _ _ (Some _)) => False
  | _ => True
  end.

(** The event is neither a click on the submit button nor Enter inside
    the modal. *)
Definition not_a_submission (e : event) : Prop :=
  match e with
  | ClickSubmit _ | KeyDown _ Enter => False
  | _ => True
  end.

(** ** What a request sent carries *)

Definition well_formed_request (rq : request) : Prop :=
  rq_format rq = js "csv"
  /\ rq_password rq <> []
  /\ rq_username rq <> []
  /\ forall x, head (rq_username rq) = Some x \/ last (rq_username rq) = Some x ->
               is_js_space x = false.

(** ** The handlers of the modals *)

(** The click handlers of a modal are registered exactly while its overlay
    is in the document, and every overlay in the document is that of a
    modal built. *)
Definition wired (ms : list modal) (os : list nat) : Prop :=
  (forall m md, ms !! m = Some md ->
     submit_listener md = bool_decide (m ∈ os)
     /\ cancel_listener md = bool_decide (m ∈ os))
  /\ (forall m, m ∈ os -> (m < length ms)%nat).

(** The assignments that leave the listeners alone. *)
Definition keeps_listeners (f : modal -> modal) : Prop :=
  forall md, submit_listener (f md) = submit_listener md
             /\ cancel_listener (f md) = cancel_listener md.

(** ** The buttons of the modals *)

(** A modal in the document has a button disabled only while one of its
    requests is in flight. *)
Definition buttons_live (ms : list modal) (os : list nat) (pd : list request)
  : Prop :=
  forall m md, ms !! m = Some md -> m ∈ os ->
    submit_disabled md || cancel_disabled md = true ->
    exists rq, rq ∈ pd /\ rq_modal rq = m.

(** The assignments that leave the disabled state of the buttons alone. *)
Definition keeps_buttons (f : modal -> modal) : Prop :=
  forall md, submit_disabled (f md) = submit_disabled md
             /\ cancel_disabled (f md) = cancel_disabled md.

(** ** Views of the log *)

(** The displays of the download buttons in the log, in order. *)
Fixpoint entry_buttons (ns : list node) : list display :=
  match ns with
  | [] => []
  | ReportAction d :: t => d :: entry_buttons t
  | Message _ _ :: t => entry_buttons t
  end.

(** The messages of the log, in order. *)
Fixpoint messages (ns : list node) : list (sender * jsstring) :=
  match ns with
  | [] => []
  | Message s h :: t => (s, h) :: messages t
  | ReportAction _ :: t => messages t
  end.


(** ** Logs that build no element

    The lookups of the script by id ([document.getElementById]) find the
    elements the script made as long as no entry of the log has built an
    element that carries one of those ids. The properties that depend on
    which element a lookup finds are stated for logs whose entries are
    read as text and br elements alone. *)

Definition is_text_or_break (t : html_token) : bool :=
  match t with
  | Character _ => true
  | StartTag name _ => jsstring_eqb name (js "br")
  | EndTag _ => false
  end.

Definition no_markup (h : jsstring) : bool :=
  match tokenize Data h with
  | Some ts => forallb is_text_or_break ts
  | None => false
  end.

Definition log_inert (st : state) : bool :=
  forallb (fun n => match n with
                    | Message _ h => no_markup h
                    | ReportAction _ => true
                    end) (chatBody st).

(** The log is inert in the state and after each of the events. *)
Fixpoint inert_along (evs : list event) (st : state) : bool :=
  log_inert st
  && match evs with
     | [] => true
     | e :: evs' => inert_along evs' (step e st)
     end.

(** ** The session state of the design

    The design names four session states and says what the page shows in
    each: the credential prompt is open in PromptOpen and, with a request
    of it pending, in InFlight; with no prompt, the entry point is visible
    exactly in Initial. [spec_session_state] reads the state off the page
    in these words, to be compared with what the script does to the home
    button. *)









(** * Properties *)

(** ** The built-ins and the resolver on sample inputs *)

Example decode_two_byte :
  decodeURIComponent (js "r%C3%A9sum%c3%a9.csv")
  = Normal [114; 233; 115; 117; 109; 233; 46; 99; 115; 118].
Proof. reflexivity. Qed.

Example decode_astral :
  decodeURIComponent (js "%F0%9F%91%8B") = Normal [55357; 56395].
Proof. reflexivity. Qed.

Example decode_rejects :
  Forall (fun s => decodeURIComponent (js s) = Throw URIError)
    ["%"; "%4"; "%zz"; "%80"; "%C3"; "%C3x"; "%C0%80"; "%ED%A0%80";
     "%F4%90%80%80"; "%E0%A4%A.csv"]%string.
Proof. repeat constructor. Qed.

Example trim_blanks : trim ([160; 9] ++ js " a b " ++ [10; 8232]) = js "a b".
Proof. reflexivity. Qed.

(** A name with one letter escaped and the same letter sent as it is: it
    comes back decoded, the unescaped letter untouched. *)
Example resolve_extended :
  parseFilenameFromDisposition
    (Some (js "attachment; filename*=UTF-8''r%C3%A9sum" ++ [233] ++ js ".csv"))
  = Normal (Some [114; 233; 115; 117; 109; 233; 46; 99; 115; 118]).
Proof. reflexivity. Qed.

(** The extended form wins wherever it stands. *)
Example resolve_extended_first :
  parseFilenameFromDisposition
    (Some (js "attachment; filename=" ++ [c_quote] ++ js "a.csv" ++ [c_quote]
           ++ js "; filename*=UTF-8''b%20c.csv"))
  = Normal (Some (js "b c.csv")).
Proof. reflexivity. Qed.

(** A quoted value may hold semicolons. *)
Example resolve_quoted :
  parseFilenameFromDisposition
    (Some (js "attachment; filename=" ++ [c_quote] ++ js "a;b.csv" ++ [c_quote]
           ++ js "; size=3"))
  = Normal (Some (js "a;b.csv")).
Proof. reflexivity. Qed.

(** A bare value runs to the next semicolon, blanks included. *)
Example resolve_bare :
  parseFilenameFromDisposition (Some (js "attachment; filename=a b.csv ; size=3"))
  = Normal (Some (js "a b.csv ")).
Proof. reflexivity. Qed.

(** An opening quote without its closing one is part of a bare value. *)
Example resolve_unclosed_quote :
  parseFilenameFromDisposition
    (Some (js "attachment; filename=" ++ [c_quote] ++ js "a.csv; size=3"))
  = Normal (Some ([c_quote] ++ js "a.csv")).
Proof. reflexivity. Qed.

Example resolve_none :
  Forall (fun d => parseFilenameFromDisposition d = Normal None)
    [None; Some []; Some (js "attachment"); Some (js "inline; filename=;");
     Some (js "attachment; filename*=utf-8''a.csv")].
Proof. repeat constructor. Qed.

Example resolve_defaults :
  resolve_filename None (js "xlsx") = Normal (js "report.xlsx")
  /\ resolve_filename None (js "csv") = Normal (js "report.csv")
  /\ resolve_filename (Some (js "attachment")) (js "pdf") = Normal (js "report.csv").
Proof. repeat split. Qed.

(** ** The patterns of the resolver *)

Lemma strip_prefix_app p s t : strip_prefix p s = Some t <-> s = p ++ t.
Proof.
  revert s. induction p as [|x p IH]; intros s; cbn.
  - split; [by intros [= ->]|by intros ->].
  - destruct s as [|y s]; [done|].
    destruct (N.eqb_spec x y) as [->|Hne].
    + rewrite IH. split; [by intros ->|by intros [= ->]].
    + split; [done|]. intros [= -> _]. done.
Qed.

(** The run holds no [c], and what follows it is the end or a [c]. *)
Lemma run_of_split c s :
  exists rest, s = run_of c s ++ rest
    /\ Forall (fun x => x <> c) (run_of c s)
    /\ (rest = [] \/ exists rest', rest = c :: rest').
Proof.
  induction s as [|x s (rest & Hs & Hf & Hr)]; cbn.
  - exists []. auto.
  - destruct (N.eqb_spec x c) as [->|Hne].
    + exists (c :: s). eauto.
    + exists rest. split; [cbn; by f_equal|]. split; [by constructor|done].
Qed.

Lemma first_some_app {A B} (f : A -> option B) l1 l2 :
  first_some f (l1 ++ l2)
  = match first_some f l1 with Some b => Some b | None => first_some f l2 end.
Proof.
  induction l1 as [|a l1 IH]; cbn; [done|]. destruct (f a); [done|apply IH].
Qed.

Lemma first_some_map {A B C} (f : B -> option C) (h : A -> B) l :
  first_some f (map h l) = first_some (fun a => f (h a)) l.
Proof.
  induction l as [|a l IH]; cbn; [done|]. destruct (f (h a)); [done|apply IH].
Qed.

Lemma first_some_ext {A B} (f g : A -> option B) l :
  (forall a, f a = g a) -> first_some f l = first_some g l.
Proof.
  intros E. induction l as [|a l IH]; cbn; [done|]. by rewrite E, IH.
Qed.

Lemma run_of_cons_inv c s y g :
  run_of c s = y :: g -> exists s', s = y :: s' /\ y <> c.
Proof.
  destruct s as [|x s']; cbn; [done|].
  destruct (N.eqb_spec x c); [done|]. intros [= <- _]. eauto.
Qed.

(** A capture group at the end of a pattern takes the longest run. *)
Lemma greedy_at_end (c : N) s p :
  first_some (fun gt => cons (p ++ gt.1) <$> Some []) (runs c s)
  = match run_of c s with [] => None | g => Some [p ++ g] end.
Proof.
  revert p. induction s as [|x s IH]; intros p; cbn [runs run_of]; [done|].
  destruct (N.eqb_spec x c) as [->|Hne]; [done|].
  rewrite first_some_app, first_some_map. cbn [first_some fst snd].
  rewrite (first_some_ext _ (fun gt => cons ((p ++ [x]) ++ gt.1) <$> Some []))
    by (intros [g r]; cbn; by rewrite <- app_assoc).
  rewrite IH. destruct (run_of c s); [done|]. by rewrite <- app_assoc.
Qed.

(** A capture group followed by a rest [k] that fails inside a run takes
    the longest run or nothing: the shorter runs the backtracking tries all
    end inside the run. *)
Lemma greedy_backtracks_in_vain (c : N) (k : jsstring -> option (list jsstring)) :
  (forall y r, y <> c -> k (y :: r) = None) ->
  forall s p,
    first_some (fun gt => cons (p ++ gt.1) <$> k gt.2) (runs c s)
    = match run_of c s with
      | [] => None
      | g => cons (p ++ g) <$> k (drop (length g) s)
      end.
Proof.
  intros Hk. induction s as [|x s IH]; intros p; cbn [runs run_of]; [done|].
  destruct (N.eqb_spec x c) as [->|Hne]; [done|].
  rewrite first_some_app, first_some_map. cbn [first_some fst snd].
  rewrite (first_some_ext _ (fun gt => cons ((p ++ [x]) ++ gt.1) <$> k gt.2))
    by (intros [g r]; cbn; by rewrite <- app_assoc).
  rewrite IH. cbn [length drop].
  destruct (run_of c s) as [|y g] eqn:R.
  - rewrite drop_0. by destruct (k s).
  - rewrite <- app_assoc. cbn [app length].
    destruct (k (drop (S (length g)) s)) as [caps|]; cbn; [done|].
    apply run_of_cons_inv in R as (s' & -> & Hy). by rewrite (Hk y s' Hy).
Qed.

(** /lit([^c]+)/ at the start of [s]: the literal, then the longest run
    of units other than [c], which must not be empty. *)
Lemma exec_open (l : jsstring) (c : N) (s : jsstring) :
  exec_here [Lit l; CapNot c] s
  = t ← strip_prefix l s;
    match run_of c t with [] => None | g => Some [g] end.
Proof.
  cbn [exec_here]. destruct (strip_prefix l s) as [t|]; [|done].
  cbn [mbind option_bind]. apply (greedy_at_end c t []).
Qed.

(** /lit([^c]+)c/ at the start of [s]: the literal, then the longest run
    of units other than [c], not empty and followed by [c]. *)
Lemma exec_closed (l : jsstring) (c : N) (s : jsstring) :
  exec_here [Lit l; CapNot c; Lit [c]] s
  = t ← strip_prefix l s;
    match run_of c t with
    | [] => None
    | g => match strip_prefix [c] (drop (length g) t) with
           | Some _ => Some [g]
           | None => None
           end
    end.
Proof.
  cbn [exec_here]. destruct (strip_prefix l s) as [t|]; [|done].
  cbn [mbind option_bind].
  set (k := fun r : jsstring =>
              match strip_prefix [c] r with
              | Some _ => Some ([] : list jsstring)
              | None => None
              end).
  assert (Hk : forall y r, y <> c -> k (y :: r) = None).
  { intros y r Hy. unfold k. cbn. by destruct (N.eqb_spec c y). }
  etrans; [exact (greedy_backtracks_in_vain c k Hk t [])|]. unfold k.
  destruct (run_of c t); [done|]. cbn [app].
  by destruct (strip_prefix [c] _).
Qed.

(** String.prototype.match finds a match at the leftmost position that
    has one. *)
Lemma String_match_leftmost (r : regex) (s : jsstring) caps :
  String_match r s = Some caps ->
  exists pre suf, s = pre ++ suf
    /\ exec_here r suf = Some caps
    /\ forall i, (i < length pre)%nat -> exec_here r (drop i s) = None.
Proof.
  induction s as [|x s IH]; cbn [String_match].
  - destruct (exec_here r []) eqn:E; [|done]. intros [= ->].
    exists [], []. repeat split; [done|]. cbn. lia.
  - destruct (exec_here r (x :: s)) eqn:E.
    + intros [= ->]. exists [], (x :: s). repeat split; [done|]. cbn. lia.
    + intros (pre & suf & -> & Hs & Hl)%IH.
      exists (x :: pre), suf. repeat split; [done|].
      intros [|i] Hi; [exact E|]. cbn in *. apply Hl. lia.
Qed.

Lemma group1_inv m v :
  group1 m = Some v -> exists caps, m = Some (v :: caps) /\ v <> [].
Proof.
  destruct m as [[|g caps]|]; cbn; try done.
  destruct g; cbn; [done|]. intros [= <-]. eauto.
Qed.

(** What a match of /lit([^c]+)/ captures: a non-empty stretch without
    [c] right after the literal, up to the next [c] or the end. *)
Lemma open_match_shape (l : jsstring) (c : N) (d v : jsstring) :
  group1 (String_match [Lit l; CapNot c] d) = Some v ->
  exists pre post, d = pre ++ l ++ v ++ post
    /\ v <> []
    /\ Forall (fun x => x <> c) v
    /\ (post = [] \/ exists post', post = c :: post').
Proof.
  intros (caps & (pre & suf & -> & E & _)%String_match_leftmost & Hv)%group1_inv.
  rewrite exec_open in E.
  destruct (strip_prefix l suf) as [t|] eqn:S; [|done].
  apply strip_prefix_app in S as ->. cbn [mbind option_bind] in E.
  destruct (run_of_split c t) as (post & Ht & Hf & Hp).
  destruct (run_of c t) as [|y g]; [done|]. injection E as <- <-.
  exists pre, post. by rewrite <- Ht.
Qed.

(** What a match of /lit([^c]+)c/ captures: a non-empty stretch without
    [c] between the literal and a [c]. *)
Lemma closed_match_shape (l : jsstring) (c : N) (d v : jsstring) :
  group1 (String_match [Lit l; CapNot c; Lit [c]] d) = Some v ->
  exists pre post, d = pre ++ l ++ v ++ c :: post
    /\ v <> []
    /\ Forall (fun x => x <> c) v.
Proof.
  intros (caps & (pre & suf & -> & E & _)%String_match_leftmost & Hv)%group1_inv.
  rewrite exec_closed in E.
  destruct (strip_prefix l suf) as [t|] eqn:S; [|done].
  apply strip_prefix_app in S as ->. cbn [mbind option_bind] in E.
  destruct (run_of_split c t) as (post & Ht & Hf & Hp).
  destruct (run_of c t) as [|y g] eqn:R; [done|].
  destruct (strip_prefix [c] (drop (length (y :: g)) t)) as [post'|] eqn:S;
    [|done].
  injection E as <- <-. apply strip_prefix_app in S.
  rewrite Ht, drop_app_length in S. subst post.
  exists pre, post'. by rewrite Ht at 1.
Qed.

(** ** The filename resolver *)

Lemma escapes_nonempty c t ts : escapes (c :: t) = Some ts -> ts <> [].
Proof.
  simpl. repeat case_match; intros ?; simplify_option_eq; discriminate.
Qed.

Lemma UTF16Encode_nonempty v r : UTF16EncodeCodePoint v ++ r <> [].
Proof. unfold UTF16EncodeCodePoint. case_match; discriminate. Qed.

Lemma utf8_nonempty tk ts r : utf8 (tk :: ts) = Some r -> r <> [].
Proof.
  simpl. repeat case_match; intros ?; simplify_option_eq;
    try discriminate; apply UTF16Encode_nonempty.
Qed.

Lemma decodeURIComponent_truthy v r :
  truthy v = true -> decodeURIComponent v = Normal r -> truthy r = true.
Proof.
  unfold decodeURIComponent. destruct v as [|c t]; [discriminate|]. intros _.
  destruct (escapes (c :: t)) as [ts|] eqn:E; [|discriminate].
  apply escapes_nonempty in E. destruct ts as [|tk ts]; [done|].
  cbn [mbind option_bind]. destruct (utf8 (tk :: ts)) as [r'|] eqn:U; [|discriminate].
  apply utf8_nonempty in U. intros [= <-]. by destruct r'.
Qed.

Lemma group1_truthy m v : group1 m = Some v -> truthy v = true.
Proof.
  unfold group1. repeat case_match; try discriminate. by intros [= <-].
Qed.

(** A name the resolver returns is never the empty string, so the default
    of the transaction stands in for null alone. *)
Lemma resolved_name_truthy disposition f :
  parseFilenameFromDisposition disposition = Normal (Some f) -> truthy f = true.
Proof.
  unfold parseFilenameFromDisposition.
  destruct disposition as [d|]; [|discriminate].
  destruct (truthy d); cbn [negb]; [|discriminate].
  destruct (group1 (String_match re_extended d)) as [v|] eqn:E1.
  { destruct (decodeURIComponent v) eqn:D; [|discriminate].
    cbn. intros [= <-].
    eapply decodeURIComponent_truthy; eauto using group1_truthy. }
  destruct (group1 (String_match re_quoted d)) as [v|] eqn:E2.
  { intros [= <-]; eauto using group1_truthy. }
  destruct (group1 (String_match re_bare d)) as [v|] eqn:E3; [|discriminate].
  intros [= <-]; eauto using group1_truthy.
Qed.

(** For every header the resolver goes through the three forms in order
    and the first that matches decides: the extended form gives the
    outcome of decodeURIComponent on its value, else the quoted form gives
    its value as it is, else the bare form gives its value up to the next
    semicolon as it is, else (and for an absent header) the resolver gives
    null and the transaction takes report.xlsx for the format xlsx and
    report.csv otherwise. *)
Theorem filename_precedence (disposition : option jsstring) (fmt : jsstring) :
  parseFilenameFromDisposition disposition =
  match disposition with
  | None => Normal None
  | Some d =>
      match group1 (String_match re_extended d) with
      | Some v => completion_map Some (decodeURIComponent v)
      | None =>
          match group1 (String_match re_quoted d) with
          | Some v => Normal (Some v)
          | None =>
              match group1 (String_match re_bare d) with
              | Some v => Normal (Some v)
              | None => Normal None
              end
          end
      end
  end
  /\
  resolve_filename disposition fmt =
  match disposition with
  | None => Normal (default_name fmt)
  | Some d =>
      match group1 (String_match re_extended d) with
      | Some v => decodeURIComponent v
      | None =>
          match group1 (String_match re_quoted d) with
          | Some v => Normal v
          | None =>
              match group1 (String_match re_bare d) with
              | Some v => Normal v
              | None => Normal (default_name fmt)
              end
          end
      end
  end.
Proof.
  assert (P : parseFilenameFromDisposition disposition =
    match disposition with
    | None => Normal None
    | Some d =>
        match group1 (String_match re_extended d) with
        | Some v => completion_map Some (decodeURIComponent v)
        | None =>
            match group1 (String_match re_quoted d) with
            | Some v => Normal (Some v)
            | None =>
                match group1 (String_match re_bare d) with
                | Some v => Normal (Some v)
                | None => Normal None
                end
            end
        end
    end).
  { unfold parseFilenameFromDisposition.
    destruct disposition as [[|c d]|]; reflexivity. }
  split; [exact P|].
  unfold resolve_filename.
  destruct (parseFilenameFromDisposition disposition) as [[f|]|e] eqn:Q.
  - rewrite (resolved_name_truthy _ _ Q). revert P.
    destruct disposition as [d|]; [|discriminate].
    unfold completion_map. repeat case_match; congruence.
  - revert P. destruct disposition as [d|]; [|reflexivity].
    unfold completion_map. repeat case_match; congruence.
  - revert P. destruct disposition as [d|]; [|discriminate].
    unfold completion_map. repeat case_match; congruence.
Qed.

(** The resolver throws only from the decoding of an extended form. *)
Lemma resolver_throws_only_on_extended disposition e :
  parseFilenameFromDisposition disposition = Throw e ->
  exists d v, disposition = Some d
    /\ group1 (String_match re_extended d) = Some v
    /\ decodeURIComponent v = Throw e.
Proof.
  unfold parseFilenameFromDisposition.
  destruct disposition as [d|]; [|discriminate].
  destruct (truthy d); cbn [negb]; [|discriminate].
  destruct (group1 (String_match re_extended d)) as [v|] eqn:E1.
  - destruct (decodeURIComponent v) eqn:D; [discriminate|].
    cbn. intros [= <-]. eauto.
  - repeat case_match; discriminate.
Qed.

(** C2: the resolver is not total. On a header whose extended form
    carries a malformed escape, decodeURIComponent throws a URIError and
    the resolver passes it on: it returns neither a name nor null. *)
Theorem resolver_throws_on_malformed_escape :
  parseFilenameFromDisposition (Some hdr_malformed) = Throw URIError.
Proof. vm_compute. reflexivity. Qed.

(** With such a header on a successful response the transaction ends in
    its catch block: no object URL is created and the modal shows a
    network error. *)
Lemma malformed_escape_fails_the_download :
  let st := step (Settle 0 (Success (Normal [80; 75]) (Some hdr_malformed) None))
                 in_flight in
  created (trace st) = []
  /\ cred_error <$> modals st !! 0%nat = Some (js "Network error: URI malformed").
Proof. vm_compute. repeat split. Qed.

(** ** The session flag and the home button *)

Lemma home_display_eq d st : home_display d st = set_homeBtn (Some d) st.
Proof.
  unfold home_display, ensureHomeButton. destruct st as [? ? [h|] ? ? ? ? ? ? ?];
    reflexivity.
Qed.

Lemma reveal_home_eq st :
  reveal_home st = set_isLanding false (set_homeBtn (Some d_inline_block) st).
Proof. unfold reveal_home. by rewrite home_display_eq. Qed.

Lemma reveal_home_view st : landing_view (reveal_home st).
Proof. reflexivity. Qed.

Lemma initReportChat_view st : landing_view (initReportChat st).
Proof.
  unfold landing_view, initReportChat, home_display, ensureHomeButton.
  destruct (homeBtn (set_isLanding true st)); reflexivity.
Qed.

Lemma onCancel_view m st : landing_view (onCancel m st).
Proof. reflexivity. Qed.

Lemma catch_block_view m e st : landing_view (catch_block m e st).
Proof. reflexivity. Qed.

Lemma onSubmit_view m st : landing_view st -> landing_view (onSubmit m st).
Proof.
  unfold landing_view, onSubmit. intros H.
  repeat case_match; exact H.
Qed.

Lemma on_send_view st : landing_view st -> landing_view (on_send st).
Proof.
  unfold landing_view, on_send. intros H.
  repeat case_match; first [exact H | reflexivity].
Qed.

Lemma resume_view rq o st : landing_view (resume rq o st).
Proof.
  unfold resume. repeat case_match; reflexivity.
Qed.

Lemma keyHandler_view m k st :
  landing_view st -> landing_view (keyHandler m k st).
Proof.
  destruct k; cbn [keyHandler]; auto using onSubmit_view, onCancel_view.
Qed.

Create HintDb views.
#[local] Hint Resolve onSubmit_view on_send_view resume_view onCancel_view
  initReportChat_view keyHandler_view : views.

Lemma step_view e st : landing_view st -> landing_view (step e st).
Proof.
  intros H. destruct e; unfold step; repeat case_match; auto with views.
  all: first [reflexivity | exact H].
Qed.

Lemma run_view evs st : landing_view st -> landing_view (run evs st).
Proof.
  revert st. induction evs as [|e evs IH]; intros st H; [exact H|].
  apply IH, step_view, H.
Qed.

(** Over every sequence of events the visibility of the home button is
    the negation of the flag isLanding: the script assigns the two side
    by side. *)
Theorem home_visible_iff_not_landing (evs : list event) :
  home_visible (run evs page_loaded) = negb (isLanding (run evs page_loaded)).
Proof. apply run_view. reflexivity. Qed.

(** ** The overlays in the document *)














(** ** Submission *)



(** C4: the disabled submit button stops a second click, but the Enter key
    inside the modal reaches onSubmit all the same and a second request
    goes out while the first is in flight. *)
Theorem enter_resubmits_while_in_flight :
  pending in_flight = [the_request]
  /\ (submit_disabled <$> modals in_flight !! 0%nat) = Some true
  /\ step (ClickSubmit 0) in_flight = in_flight
  /\ pending (step (KeyDown 0 Enter) in_flight) = [the_request; the_request]
  /\ fetched (trace (step (KeyDown 0 Enter) in_flight))
     = [the_request; the_request].
Proof. vm_compute. repeat split. Qed.

(** Enter inside the open modal submits valid credentials whatever the
    state of the buttons. *)
Lemma enter_submits_whatever_disabled (st : state) (m : nat) (md : modal) :
  m ∈ overlays st ->
  modals st !! m = Some md ->
  truthy (trim (cred_user md)) = true ->
  truthy (cred_pass md) = true ->
  pending (step (KeyDown m Enter) st)
  = pending st ++ [Request m (trim (cred_user md)) (cred_pass md)
                           (defaultFormat md)].
Proof.
  intros Hin Hm Hu Hp. cbn [step]. unfold attached.
  rewrite bool_decide_eq_true_2 by done.
  cbn [keyHandler]. unfold onSubmit. rewrite Hm, Hu, Hp. reflexivity.
Qed.

(** C10: with both buttons disabled a click on cancel does nothing, while
    Escape inside the modal runs onCancel: the cancellation message is
    logged, the overlay leaves the document, the home button is shown and
    the landing flag is cleared. *)
Theorem escape_cancels_while_in_flight (st : state) (m : nat) (md : modal) :
  m ∈ overlays st ->
  modals st !! m = Some md ->
  submit_disabled md = true ->
  cancel_disabled md = true ->
  step (ClickCancel m) st = st
  /\ let st' := step (KeyDown m Escape) st in
     st' = onCancel m st
     /\ chatBody st' = chatBody st ++ [Message bot msg_cancelled]
     /\ (m ∉ overlays st')
     /\ home_visible st' = true
     /\ isLanding st' = false.
Proof.
  intros Hin Hm _ Hc. split.
  - cbn [step]. rewrite Hm, Hc. by rewrite andb_false_r.
  - cbn [step]. unfold attached. rewrite bool_decide_eq_true_2 by done.
    cbn [keyHandler]. split; [reflexivity|].
    unfold onCancel. rewrite reveal_home_eq. repeat split.
    cbn. intros [? _]%list_elem_of_filter. done.
Qed.

Lemma escape_cancels_while_in_flight_witness :
  step (ClickCancel 0) in_flight = in_flight
  /\ let st' := step (KeyDown 0 Escape) in_flight in
     st' = onCancel 0 in_flight
     /\ chatBody st' = chatBody in_flight ++ [Message bot msg_cancelled]
     /\ (0%nat ∉ overlays st')
     /\ home_visible st' = true
     /\ isLanding st' = false.
Proof.
  refine (escape_cancels_while_in_flight in_flight 0
            (Modal (js "csv") (js "a") (js "b") [] true true
                   (js "Downloading...") true true)
            _ eq_refl eq_refl eq_refl).
  vm_compute. apply list_elem_of_here.
Defined.

(** ** The object URL of a download *)

(** When the save action returns, the URL is created once and revoked once,
    after the click. *)
Lemma success_creates_and_revokes_once st rq bytes disposition filename :
  resolve_filename disposition (rq_format rq) = Normal filename ->
  trace (resume rq (Success (Normal bytes) disposition None) st)
  = trace st ++ [CreateObjectURL (urls st) bytes;
                 AnchorClick (urls st) filename;
                 RevokeObjectURL (urls st)].
Proof.
  intros H. unfold resume. rewrite H, reveal_home_eq. cbn.
  by rewrite <- !app_assoc.
Qed.

(** When the save action throws, control goes to the catch block, which
    revokes nothing. *)
Lemma click_throw_skips_revoke st rq bytes disposition filename e :
  resolve_filename disposition (rq_format rq) = Normal filename ->
  trace (resume rq (Success (Normal bytes) disposition (Some e)) st)
  = trace st ++ [CreateObjectURL (urls st) bytes;
                 AnchorClick (urls st) filename;
                 ConsoleError msg_console_error].
Proof.
  intros H. unfold resume, catch_block. rewrite H, reveal_home_eq. cbn.
  by rewrite <- !app_assoc.
Qed.

(** A fetch that rejects creates no URL. *)
Lemma rejected_creates_nothing st rq e :
  trace (resume rq (Rejected e) st) = trace st ++ [ConsoleError msg_console_error].
Proof. unfold resume, catch_block. by rewrite reveal_home_eq. Qed.

(** C3: when the click on the download anchor throws after a successful
    response, the object URL that was created is never revoked, and the
    anchor stays in the document. *)
Theorem object_url_leaks_when_click_throws :
  let click_failed := HostError (js "Error") (js "click failed") in
  let st := step (Settle 0 (Success (Normal [80; 75]) None (Some click_failed)))
                 in_flight in
  created (trace st) = [0%nat]
  /\ revoked (trace st) = []
  /\ anchors st = [(0%nat, js "report.csv")]
  /\ pending st = [].
Proof. vm_compute. repeat split. Qed.

(** ** The home button *)

(** C5: the home button, clicked while the modal is open, clears the log,
    renders the welcome message and the entry point again, hides itself
    and sets the landing flag, but the overlay of the modal stays in the
    document. *)
Theorem home_leaves_modal_open :
  let st := run [ClickDownload 1; ClickHome] page_loaded in
  overlays st = [0%nat]
  /\ chatBody st = [Message bot msg_welcome; ReportAction d_unset]
  /\ home_visible st = false
  /\ isLanding st = true.
Proof. vm_compute. repeat split. Qed.

(** ** The markup of a message *)

Lemma tokenize_cons q c t :
  tokenize q (c :: t)
  = match tstep q c with
    | Some (out, q') => app out <$> tokenize q' t
    | None => None
    end.
Proof. reflexivity. Qed.

Ltac tokenize_unit :=
  rewrite tokenize_cons;
  match goal with
  | |- context [tstep ?q ?c] =>
      let r := eval vm_compute in (tstep q c) in
      change (tstep q c) with r
  end;
  cbv beta iota.


Lemma tokenize_br_markup rest :
  tokenize Data (br_markup ++ rest)
  = app [StartTag (js "br") true] <$> tokenize Data rest.
Proof.
  change (br_markup ++ rest) with (60 :: 98 :: 114 :: 47 :: 62 :: rest).
  do 5 tokenize_unit.
  destruct (tokenize Data rest); reflexivity.
Qed.

(** A text without the characters the tokenizer treats specially is
    shown as it is, with its line breaks as br elements. *)
Lemma plain_text_is_literal (content : jsstring) :
  Forall (fun c => c <> c_lt /\ data_special c = false) content ->
  tokenize Data (replace_newlines content) = Some (literal_tokens content).
Proof.
  induction 1 as [|c t [Hlt Hsp] _ IH]; [reflexivity|].
  unfold replace_newlines, literal_tokens in *. cbn [flat_map].
  destruct (c =? c_newline) eqn:En.
  - rewrite tokenize_br_markup, IH. reflexivity.
  - cbn [app tokenize tstep]. rewrite Hsp.
    apply N.eqb_neq in Hlt. rewrite Hlt, IH. reflexivity.
Qed.

(** C9: a message the user types with markup in it is assigned to
    innerHTML as it is, and read as elements, not as its literal text. *)
Theorem typed_markup_is_interpreted :
  let content := js "<b>hi</b>" in
  let st := run [TypeInput content; ClickSend] page_loaded in
  chatBody st !! 2%nat = Some (Message user content)
  /\ tokenize Data content
     = Some [StartTag (js "b") false; Character 104; Character 105;
             EndTag (js "b")]
  /\ tokenize Data content <> Some (literal_tokens content).
Proof. vm_compute. repeat split. discriminate. Qed.

(** * Further properties of the resolver *)

Lemma includes_false_cons s n x :
  includes (x :: s) n = false -> includes s n = false.
Proof. cbn. by destruct (strip_prefix n (x :: s)). Qed.

(** A pattern whose literal does not occur in the string has no match. *)
Lemma no_literal_no_match (l : jsstring) (r : regex) (d : jsstring) :
  includes d l = false -> String_match (Lit l :: r) d = None.
Proof.
  induction d as [|x d IH]; intros H.
  - cbn in *. by destruct (strip_prefix l []).
  - cbn [String_match exec_here]. cbn [includes] in H.
    destruct (strip_prefix l (x :: d)); [done|]. by apply IH.
Qed.

(** The search passes over units that cannot start the literal. *)
Lemma String_match_skip (c0 : N) (l : jsstring) (r : regex) pre s :
  Forall (fun x => x <> c0) pre ->
  String_match (Lit (c0 :: l) :: r) (pre ++ s)
  = String_match (Lit (c0 :: l) :: r) s.
Proof.
  induction 1 as [|x pre Hx _ IH]; [done|].
  cbn [app String_match exec_here strip_prefix].
  destruct (N.eqb_spec c0 x); [congruence|exact IH].
Qed.

Lemma String_match_here (r : regex) (s : jsstring) caps :
  exec_here r s = Some caps -> String_match r s = Some caps.
Proof. intros E. destruct s; cbn [String_match]; by rewrite E. Qed.

Lemma run_of_app c v tail :
  Forall (fun x => x <> c) v ->
  tail = [] \/ (exists t, tail = c :: t) ->
  run_of c (v ++ tail) = v.
Proof.
  intros Hv Ht. induction Hv as [|x v Hx _ IH]; cbn.
  - destruct Ht as [->|[t ->]]; cbn; [done|]. by rewrite N.eqb_refl.
  - destruct (N.eqb_spec x c); [done|]. by rewrite IH.
Qed.

Lemma strip_prefix_here p t : strip_prefix p (p ++ t) = Some t.
Proof. by apply strip_prefix_app. Qed.

Lemma truthy_nonempty (v : jsstring) : v <> [] -> truthy v = true.
Proof. by destruct v. Qed.

(** A match of /lit([^c]+)/ right after a stretch that cannot start the
    literal: the value up to the next [c] or the end. *)
Lemma open_match_found (c0 : N) (l : jsstring) (c : N) pre v tail :
  Forall (fun x => x <> c0) pre ->
  v <> [] ->
  Forall (fun x => x <> c) v ->
  tail = [] \/ (exists t, tail = c :: t) ->
  group1 (String_match [Lit (c0 :: l); CapNot c] (pre ++ (c0 :: l) ++ v ++ tail))
  = Some v.
Proof.
  intros Hpre Hv Hf Ht. rewrite String_match_skip by done.
  rewrite (String_match_here _ _ [v]).
  - cbn. by rewrite truthy_nonempty.
  - rewrite exec_open, strip_prefix_here. cbn [mbind option_bind].
    rewrite run_of_app by done. by destruct v.
Qed.

(** A match of /lit([^c]+)c/ right after a stretch that cannot start the
    literal: the value between the literal and the next [c]. *)
Lemma closed_match_found (c0 : N) (l : jsstring) (c : N) pre v tail :
  Forall (fun x => x <> c0) pre ->
  v <> [] ->
  Forall (fun x => x <> c) v ->
  group1 (String_match [Lit (c0 :: l); CapNot c; Lit [c]]
            (pre ++ (c0 :: l) ++ v ++ c :: tail))
  = Some v.
Proof.
  intros Hpre Hv Hf. rewrite String_match_skip by done.
  rewrite (String_match_here _ _ [v]).
  - cbn. by rewrite truthy_nonempty.
  - rewrite exec_closed, strip_prefix_here. cbn [mbind option_bind].
    rewrite run_of_app by eauto.
    destruct v as [|y v]; [done|].
    rewrite drop_app_length. cbn. by rewrite N.eqb_refl.
Qed.

Lemma escapes_no_percent (s : jsstring) :
  Forall (fun x => x <> c_percent) s -> escapes s = Some (map Unit s).
Proof.
  induction 1 as [|x s Hx _ IH]; [done|]. cbn [escapes map].
  destruct (N.eqb_spec x c_percent); [done|]. by rewrite IH.
Qed.

Lemma utf8_units (s : jsstring) : utf8 (map Unit s) = Some s.
Proof. induction s as [|x s IH]; [done|]. cbn. by rewrite IH. Qed.

(** decodeURIComponent leaves a string without a percent sign as it is. *)
Lemma decodeURIComponent_plain (s : jsstring) :
  Forall (fun x => x <> c_percent) s -> decodeURIComponent s = Normal s.
Proof.
  intros H. unfold decodeURIComponent. rewrite escapes_no_percent by done.
  cbn [mbind option_bind]. by rewrite utf8_units.
Qed.

(** X1: a header in which the text filename*=UTF-8'' does not occur never
    makes the resolver throw: it returns the quoted value, else the bare
    value, else null. *)
Theorem resolver_returns_without_extended (d : jsstring) :
  includes d lit_extended = false ->
  parseFilenameFromDisposition (Some d)
  = Normal (match group1 (String_match re_quoted d) with
            | Some v => Some v
            | None => group1 (String_match re_bare d)
            end).
Proof.
  intros H. unfold parseFilenameFromDisposition.
  pose proof (no_literal_no_match lit_extended [CapNot c_semi] d H) as E.
  change (String_match re_extended d = None) in E. rewrite E. cbn [group1].
  destruct d as [|x d]; [reflexivity|]. cbn [truthy negb].
  repeat case_match; reflexivity.
Qed.

Lemma resolver_returns_without_extended_witness :
  parseFilenameFromDisposition (Some (js "attachment; filename=a%ZZ.csv"))
  = Normal (Some (js "a%ZZ.csv")).
Proof.
  exact (resolver_returns_without_extended
           (js "attachment; filename=a%ZZ.csv") eq_refl).
Defined.

(** X2: the name a download is saved under is never the empty string,
    whatever the header and the format. *)
Theorem saved_name_not_empty (disposition : option jsstring)
    (fmt name : jsstring) :
  resolve_filename disposition fmt = Normal name -> name <> [].
Proof.
  unfold resolve_filename.
  destruct (parseFilenameFromDisposition disposition) as [[f|]|e] eqn:P.
  - rewrite (resolved_name_truthy _ _ P). intros [= <-].
    apply resolved_name_truthy in P. by destruct f.
  - intros [= <-]. unfold default_name. by case_match.
  - done.
Qed.

Lemma saved_name_not_empty_witness : js "a.csv" <> [].
Proof.
  exact (saved_name_not_empty (Some (js "inline; filename=a.csv")) (js "csv")
           (js "a.csv") eq_refl).
Defined.

(** X3: a header that carries the extended form after a stretch without
    the letter f resolves to the percent-decoding of the value that runs
    to the next semicolon or the end, whatever follows and whichever other
    forms the header holds. *)
Theorem extended_form_found (pre v tail : jsstring) :
  Forall (fun x => x <> c_f) pre ->
  v <> [] ->
  Forall (fun x => x <> c_semi) v ->
  tail = [] \/ (exists t, tail = c_semi :: t) ->
  parseFilenameFromDisposition (Some (pre ++ lit_extended ++ v ++ tail))
  = completion_map Some (decodeURIComponent v).
Proof.
  intros Hpre Hv Hf Ht. unfold parseFilenameFromDisposition.
  replace (negb (truthy (pre ++ lit_extended ++ v ++ tail))) with false
    by (by destruct pre).
  unfold re_extended. change (js "filename*=UTF-8''") with lit_extended.
  change lit_extended with (c_f :: js "ilename*=UTF-8''") at 1 2.
  by rewrite open_match_found.
Qed.

Lemma extended_form_found_witness :
  parseFilenameFromDisposition
    (Some (js "attachment; " ++ lit_extended ++ js "a%20b.csv"
           ++ js "; filename=x.csv"))
  = completion_map Some (decodeURIComponent (js "a%20b.csv")).
Proof.
  refine (extended_form_found (js "attachment; ") (js "a%20b.csv")
            (js "; filename=x.csv") _ _ _ _).
  - repeat constructor; discriminate.
  - discriminate.
  - repeat constructor; discriminate.
  - right. eexists. reflexivity.
Defined.

(** X4: a header without the extended form that carries a quoted value
    after a stretch without the letter f resolves to that value as it is,
    semicolons, percent signs and blanks included. *)
Theorem quoted_form_found (pre v tail : jsstring) :
  let d := pre ++ lit_quoted ++ v ++ c_quote :: tail in
  includes d lit_extended = false ->
  Forall (fun x => x <> c_f) pre ->
  v <> [] ->
  Forall (fun x => x <> c_quote) v ->
  parseFilenameFromDisposition (Some d) = Normal (Some v).
Proof.
  intros d Hx Hpre Hv Hf. unfold parseFilenameFromDisposition.
  replace (negb (truthy d)) with false by (by destruct pre).
  pose proof (no_literal_no_match lit_extended [CapNot c_semi] d Hx) as E.
  change (String_match re_extended d = None) in E. rewrite E. cbn [group1].
  unfold re_quoted, d. change (js "filename=" ++ [c_quote]) with lit_quoted.
  change lit_quoted with (c_f :: js "ilename=" ++ [c_quote]) at 1 2.
  by rewrite closed_match_found.
Qed.

Lemma quoted_form_found_witness :
  parseFilenameFromDisposition
    (Some (js "attachment; " ++ lit_quoted ++ js "a;b %41.csv"
           ++ c_quote :: js "; size=3"))
  = Normal (Some (js "a;b %41.csv")).
Proof.
  refine (quoted_form_found (js "attachment; ") (js "a;b %41.csv")
            (js "; size=3") eq_refl _ _ _).
  - repeat constructor; discriminate.
  - discriminate.
  - repeat constructor; discriminate.
Defined.

(** X5: a header with neither the extended form nor an opening quote
    after filename= that carries a bare value after a stretch without
    the letter f resolves to that value up to the next semicolon or the
    end, as it is. *)
Theorem bare_form_found (pre v tail : jsstring) :
  let d := pre ++ lit_bare ++ v ++ tail in
  includes d lit_extended = false ->
  includes d lit_quoted = false ->
  Forall (fun x => x <> c_f) pre ->
  v <> [] ->
  Forall (fun x => x <> c_semi) v ->
  tail = [] \/ (exists t, tail = c_semi :: t) ->
  parseFilenameFromDisposition (Some d) = Normal (Some v).
Proof.
  intros d Hx Hq Hpre Hv Hf Ht. unfold parseFilenameFromDisposition.
  replace (negb (truthy d)) with false by (by destruct pre).
  pose proof (no_literal_no_match lit_extended [CapNot c_semi] d Hx) as E.
  change (String_match re_extended d = None) in E. rewrite E.
  pose proof (no_literal_no_match lit_quoted [CapNot c_quote; Lit [c_quote]]
                d Hq) as Q.
  change (String_match re_quoted d = None) in Q. rewrite Q. cbn [group1].
  unfold re_bare, d. change (js "filename=") with lit_bare.
  change lit_bare with (c_f :: js "ilename=") at 1 2.
  by rewrite open_match_found.
Qed.

Lemma bare_form_found_witness :
  parseFilenameFromDisposition
    (Some (js "inline; " ++ lit_bare ++ js "a b.csv" ++ js "; size=3"))
  = Normal (Some (js "a b.csv")).
Proof.
  refine (bare_form_found (js "inline; ") (js "a b.csv") (js "; size=3")
            eq_refl eq_refl _ _ _ _).
  - repeat constructor; discriminate.
  - discriminate.
  - repeat constructor; discriminate.
  - right. eexists. reflexivity.
Defined.

(** X6: a name resolved from a header without the extended form stands in
    the header as it is, right after filename=: between two double quotes
    and free of them, or free of semicolons and running to the next
    semicolon or the end. *)
Theorem resolved_name_is_verbatim (d name : jsstring) :
  includes d lit_extended = false ->
  parseFilenameFromDisposition (Some d) = Normal (Some name) ->
  exists pre post,
    (d = pre ++ lit_quoted ++ name ++ c_quote :: post
     /\ Forall (fun x => x <> c_quote) name)
    \/ (d = pre ++ lit_bare ++ name ++ post
        /\ Forall (fun x => x <> c_semi) name
        /\ (post = [] \/ exists post', post = c_semi :: post')).
Proof.
  intros Hx. unfold parseFilenameFromDisposition.
  pose proof (no_literal_no_match lit_extended [CapNot c_semi] d Hx) as E.
  change (String_match re_extended d = None) in E. rewrite E. cbn [group1].
  destruct (negb (truthy d)); [done|].
  destruct (group1 (String_match re_quoted d)) as [v|] eqn:Q.
  - intros [= ->].
    apply closed_match_shape in Q as (pre & post & -> & _ & Hf).
    exists pre, post. left. done.
  - destruct (group1 (String_match re_bare d)) as [v|] eqn:B; [|done].
    intros [= ->].
    apply open_match_shape in B as (pre & post & -> & _ & Hf & Hp).
    exists pre, post. right. done.
Qed.

Lemma resolved_name_is_verbatim_witness :
  exists pre post,
    (js "inline; filename=a%20b.csv; x=1"
       = pre ++ lit_quoted ++ js "a%20b.csv" ++ c_quote :: post
     /\ Forall (fun x => x <> c_quote) (js "a%20b.csv"))
    \/ (js "inline; filename=a%20b.csv; x=1"
          = pre ++ lit_bare ++ js "a%20b.csv" ++ post
        /\ Forall (fun x => x <> c_semi) (js "a%20b.csv")
        /\ (post = [] \/ exists post', post = c_semi :: post')).
Proof.
  exact (resolved_name_is_verbatim (js "inline; filename=a%20b.csv; x=1")
           (js "a%20b.csv") eq_refl eq_refl).
Defined.

(** X7: an extended value without a percent sign comes back as it is. *)
Theorem extended_form_plain_value (pre v tail : jsstring) :
  Forall (fun x => x <> c_f) pre ->
  v <> [] ->
  Forall (fun x => x <> c_semi /\ x <> c_percent) v ->
  tail = [] \/ (exists t, tail = c_semi :: t) ->
  parseFilenameFromDisposition (Some (pre ++ lit_extended ++ v ++ tail))
  = Normal (Some v).
Proof.
  intros Hpre Hv Hf Ht. unfold parseFilenameFromDisposition.
  replace (negb (truthy (pre ++ lit_extended ++ v ++ tail))) with false
    by (by destruct pre).
  unfold re_extended. change (js "filename*=UTF-8''") with lit_extended.
  change lit_extended with (c_f :: js "ilename*=UTF-8''") at 1 2.
  rewrite open_match_found; try done.
  - rewrite decodeURIComponent_plain; [done|].
    eapply Forall_impl; [exact Hf|]. by intros x [_ ?].
  - eapply Forall_impl; [exact Hf|]. by intros x [? _].
Qed.

Lemma extended_form_plain_value_witness :
  parseFilenameFromDisposition
    (Some (js "attachment; " ++ lit_extended ++ js "report 2024.csv"))
  = Normal (Some (js "report 2024.csv")).
Proof.
  refine (extended_form_plain_value (js "attachment; ")
            (js "report 2024.csv") [] _ _ _ _).
  - repeat constructor; discriminate.
  - discriminate.
  - repeat constructor; discriminate.
  - left. reflexivity.
Defined.

(** * Further properties of the page *)

Ltac simp_state :=
  rewrite ?reveal_home_eq, ?home_display_eq in *;
  cbn [isLanding chatBody homeBtn modals overlays anchors userInput pending
       urls trace set_isLanding set_chatBody set_homeBtn set_modals
       set_overlays set_anchors set_userInput set_pending set_urls emit
       upd_modal addMessage fst snd] in *.

Ltac unfold_step :=
  unfold step, keyHandler, onCancel, onSubmit, resume, catch_block,
    closeModal, on_download_click, on_send, initReportChat,
    openCredentialModal in *.

Lemma created_app t1 t2 : created (t1 ++ t2) = created t1 ++ created t2.
Proof. apply omap_app. Qed.
Lemma revoked_app t1 t2 : revoked (t1 ++ t2) = revoked t1 ++ revoked t2.
Proof. apply omap_app. Qed.
Lemma fetched_app t1 t2 : fetched (t1 ++ t2) = fetched t1 ++ fetched t2.
Proof. apply omap_app. Qed.

(** What one event does to the object URLs: nothing, unless it settles a
    request with a response whose body and name are there; then one URL
    is created, and revoked (with its anchor removed) when the click
    returns. *)
Lemma step_urls (e : event) (st : state) :
  (urls (step e st) = urls st
   /\ created (trace (step e st)) = created (trace st)
   /\ revoked (trace (step e st)) = revoked (trace st)
   /\ anchors (step e st) = anchors st)
  \/ (exists i bytes disposition click filename,
        e = Settle i (Success (Normal bytes) disposition click)
        /\ urls (step e st) = S (urls st)
        /\ created (trace (step e st)) = created (trace st) ++ [urls st]
        /\ match click with
           | None =>
               revoked (trace (step e st)) = revoked (trace st) ++ [urls st]
               /\ anchors (step e st)
                  = filter (λ a, a.1 ≠ urls st)
                           (anchors st ++ [(urls st, filename)])
           | Some _ =>
               revoked (trace (step e st)) = revoked (trace st)
               /\ anchors (step e st) = anchors st ++ [(urls st, filename)]
           end).
Proof.
  destruct e; unfold_step; repeat case_match; simp_state;
    rewrite ?created_app, ?revoked_app, ?app_nil_r;
    try (left; repeat split; reflexivity).
  all: right; do 5 eexists; split; [reflexivity|]; simp_state.
  all: rewrite ?created_app, ?revoked_app; cbn; rewrite ?app_nil_r;
    repeat split; reflexivity.
Qed.

Lemma run_invariant (P : state -> Prop) (evs : list event) (st : state) :
  P st -> (forall e s, P s -> P (step e s)) -> P (run evs st).
Proof.
  intros H0 Hs. revert st H0.
  induction evs as [|e evs IH]; intros st H0; [exact H0|].
  apply IH, Hs, H0.
Qed.

Lemma run_invariant_on (Q : event -> Prop) (P : state -> Prop)
    (evs : list event) (st : state) :
  P st -> (forall e s, Q e -> P s -> P (step e s)) -> Forall Q evs ->
  P (run evs st).
Proof.
  intros H0 Hs Hq. revert st H0.
  induction Hq as [|e evs He _ IH]; intros st H0; [exact H0|].
  apply IH, Hs; assumption.
Qed.

(** X8: over every sequence of events, the object URLs created are
    pairwise distinct, no URL is revoked twice, and only URLs that were
    created are revoked. *)
Theorem object_urls_well_used (evs : list event) :
  let t := trace (run evs page_loaded) in
  NoDup (created t) /\ NoDup (revoked t) /\ revoked t ⊆ created t.
Proof.
  cbn zeta.
  assert (I : (fun st => created (trace st) = seq 0 (urls st)
                 /\ NoDup (revoked (trace st))
                 /\ forall u, u ∈ revoked (trace st) -> (u < urls st)%nat)
              (run evs page_loaded)).
  { apply run_invariant; cbn beta.
    - cbn. repeat split; [constructor|]. intros u Hu. by apply elem_of_nil in Hu.
    - intros e s (Hc & Hn & Hlt).
      destruct (step_urls e s) as [(-> & -> & -> & _)|
        (i & bytes & disp & click & f & _ & -> & -> & Hr)]; [done|].
      split; [by rewrite Hc, seq_S|].
      destruct click as [x|]; destruct Hr as [-> _].
      + split; [done|]. intros u Hu. apply Hlt in Hu. lia.
      + split.
        * apply NoDup_app. repeat split; [done| |apply NoDup_singleton].
          intros u Hu ->%list_elem_of_singleton. apply Hlt in Hu. lia.
        * intros u [Hu| ->%list_elem_of_singleton]%elem_of_app; [|lia].
          apply Hlt in Hu. lia. }
  destruct I as (Hc & Hn & Hlt). rewrite Hc. repeat split.
  - apply NoDup_seq.
  - exact Hn.
  - intros u Hu. apply elem_of_seq. apply Hlt in Hu. lia.
Qed.

(** X9: as long as no save action throws, every object URL created is
    revoked, in the order of creation, and no download anchor stays in
    the document. *)
Theorem no_leak_when_clicks_return (evs : list event) :
  Forall click_returns evs ->
  created (trace (run evs page_loaded)) = revoked (trace (run evs page_loaded))
  /\ anchors (run evs page_loaded) = [].
Proof.
  apply (run_invariant_on click_returns
           (fun st => created (trace st) = revoked (trace st)
                      /\ anchors st = [])); [done|].
  intros e s He [Hc Ha].
  destruct (step_urls e s) as [(_ & -> & -> & ->)|
    (i & bytes & disp & click & f & -> & _ & -> & Hr)]; [done|].
  destruct click as [x|]; [done|]. destruct Hr as [-> ->].
  rewrite Hc, Ha. split; [done|]. cbn. by rewrite decide_False by (by intros ?).
Qed.

Lemma no_leak_when_clicks_return_witness :
  let evs := to_in_flight ++ [Settle 0 (Success (Normal [80; 75]) None None)] in
  created (trace (run evs page_loaded)) = revoked (trace (run evs page_loaded))
  /\ anchors (run evs page_loaded) = [].
Proof.
  apply no_leak_when_clicks_return. repeat constructor.
Defined.

(** ** The requests sent *)

Lemma rev_is_reverse {A} (l : list A) : rev l = reverse l.
Proof. unfold reverse. by rewrite rev_alt. Qed.

Lemma trim_start_head s x :
  head (trim_start s) = Some x -> is_js_space x = false.
Proof.
  induction s as [|y s IH]; cbn; [done|].
  destruct (is_js_space y) eqn:E; [done|]. cbn. by intros [= <-].
Qed.

Lemma trim_start_last s : trim_start s <> [] -> last (trim_start s) = last s.
Proof.
  induction s as [|y s IH]; cbn; [done|].
  destruct (is_js_space y); [|done]. intros H. rewrite IH by done.
  destruct s; [done|]. by rewrite last_cons_cons.
Qed.

(** What trim returns neither starts nor ends with white space. *)
Lemma trim_edges s x :
  head (trim s) = Some x \/ last (trim s) = Some x -> is_js_space x = false.
Proof.
  unfold trim. rewrite (rev_is_reverse (trim_start _)).
  rewrite head_reverse, last_reverse. intros [H|H].
  - destruct (trim_start (rev (trim_start s))) as [|y u] eqn:E; [done|].
    rewrite <- E, trim_start_last in H by (by rewrite E).
    rewrite rev_is_reverse, last_reverse in H. by apply trim_start_head in H.
  - by apply trim_start_head in H.
Qed.

(** What one event does to the requests: nothing, unless it is a click on
    submit or Enter in the modal, with a username left after trimming
    and a password; then one request goes out and is pending. *)
Lemma step_fetch (e : event) (st : state) :
  fetched (trace (step e st)) = fetched (trace st)
  \/ (exists m md,
        (e = ClickSubmit m \/ e = KeyDown m Enter)
        /\ modals st !! m = Some md
        /\ truthy (trim (cred_user md)) = true
        /\ truthy (cred_pass md) = true
        /\ let rq := Request m (trim (cred_user md)) (cred_pass md)
                             (defaultFormat md) in
           fetched (trace (step e st)) = fetched (trace st) ++ [rq]
           /\ pending (step e st) = pending st ++ [rq]).
Proof.
  destruct e; unfold_step; repeat case_match; simp_state;
    rewrite ?fetched_app, ?app_nil_r;
    try (left; reflexivity).
  all: right; do 2 eexists; (split; [eauto|]); (split; [eassumption|]).
  all: repeat match goal with
         | H : negb _ || negb _ = false |- _ =>
             apply orb_false_elim in H as [?%negb_false_iff ?%negb_false_iff]
         end.
  all: repeat split; assumption || reflexivity.
Qed.

(** Every modal is built for the format csv. *)
Lemma step_formats (e : event) (st : state) :
  Forall (fun md => defaultFormat md = js "csv") (modals st) ->
  Forall (fun md => defaultFormat md = js "csv") (modals (step e st)).
Proof.
  intros H. destruct e; unfold_step; repeat case_match; simp_state;
    repeat (apply Forall_alter; [|intros ? _ ?; assumption]);
    try assumption.
  all: apply Forall_app; split; [assumption|by repeat constructor].
Qed.

(** X10: over every sequence of events, each request sent asks for the
    format csv and carries a password that is not empty and a username
    that is not empty and neither starts nor ends with white space. *)
Theorem requests_well_formed (evs : list event) :
  Forall well_formed_request (fetched (trace (run evs page_loaded))).
Proof.
  apply (run_invariant
           (fun st => Forall (fun md => defaultFormat md = js "csv") (modals st)
                      /\ Forall well_formed_request (fetched (trace st)))).
  - split; constructor.
  - intros e s [Hf Hr]. split; [by apply step_formats|].
    destruct (step_fetch e s) as [->|(m & md & _ & Hm & Hu & Hp & -> & _)];
      [done|].
    apply Forall_app. split; [done|]. constructor; [|constructor].
    repeat split; cbn.
    + eapply (Forall_lookup_1 _ _ _ _ Hf Hm).
    + by destruct (cred_pass md).
    + by destruct (trim (cred_user md)).
    + apply trim_edges.
Qed.

(** X11: no event other than a click on submit or Enter inside the modal
    sends a request or adds one to those in flight; the settlement of a
    request, whatever its outcome, is followed by no retry. *)
Theorem no_request_without_submission (e : event) (st : state) :
  not_a_submission e ->
  fetched (trace (step e st)) = fetched (trace st)
  /\ (length (pending (step e st)) <= length (pending st))%nat.
Proof.
  intros He. split.
  - destruct (step_fetch e st) as [->|(m & md & [->| ->] & _)]; done.
  - destruct e as [| | | | | | | |m [| |]| |]; try done; unfold_step; repeat case_match; simp_state;
      rewrite ?length_delete by eauto; lia.
Qed.

Lemma no_request_without_submission_witness :
  let e := Settle 0 (Failure 503 NotJson) in
  fetched (trace (step e in_flight)) = fetched (trace in_flight)
  /\ (length (pending (step e in_flight)) <= length (pending in_flight))%nat.
Proof.
  exact (no_request_without_submission (Settle 0 (Failure 503 NotJson))
           in_flight I).
Defined.

(** ** The handlers of the modals *)

Lemma wired_alter ms os k f :
  keeps_listeners f -> wired ms os -> wired (alter f k ms) os.
Proof.
  intros Hf [W1 W2]. split.
  - intros m md. rewrite list_lookup_alter. case_decide as E.
    + subst k. destruct (ms !! m) as [md0|] eqn:L; [|done].
      intros [= <-]. destruct (Hf md0) as [-> ->]. eauto.
    + eauto.
  - intros m Hm. rewrite length_alter. eauto.
Qed.

Lemma wired_close ms os k :
  wired ms os -> wired (alter without_listeners k ms) (filter (λ o, o ≠ k) os).
Proof.
  intros [W1 W2]. split.
  - intros m md. rewrite list_lookup_alter. case_decide as E.
    + subst k. destruct (ms !! m) as [md0|] eqn:L; [|done].
      intros [= <-]. cbn.
      rewrite bool_decide_eq_false_2; [done|].
      by intros [? _]%list_elem_of_filter.
    + intros L. destruct (W1 m md L) as [E1 E2]. rewrite E1, E2.
      assert (m ∈ os <-> m ∈ filter (λ o, o ≠ k) os) as Hiff.
      { rewrite list_elem_of_filter. split; [|by intros [_ ?]].
        intros ?. split; [congruence|done]. }
      by rewrite (bool_decide_ext _ _ Hiff).
  - intros m [_ Hm]%list_elem_of_filter. rewrite length_alter. eauto.
Qed.

Lemma wired_open ms fmt :
  wired ms [] -> wired (ms ++ [new_modal fmt]) ([] ++ [length ms]).
Proof.
  intros [W1 W2]. split.
  - intros m md L. apply lookup_app_Some in L as [L|[Hge L]].
    + destruct (W1 m md L) as [E1 E2]. rewrite E1, E2.
      apply lookup_lt_Some in L.
      rewrite (bool_decide_eq_false_2 (m ∈ [])) by apply not_elem_of_nil.
      rewrite (bool_decide_eq_false_2 (m ∈ [] ++ [length ms])); [done|].
      intros ->%list_elem_of_singleton. lia.
    + apply list_lookup_singleton_Some in L as [Hm <-]. cbn.
      rewrite bool_decide_eq_true_2; [done|].
      apply list_elem_of_singleton. lia.
  - intros m ->%list_elem_of_singleton. rewrite length_app. cbn. lia.
Qed.

Lemma keeps_with_user v : keeps_listeners (with_user v).
Proof. done. Qed.
Lemma keeps_with_pass v : keeps_listeners (with_pass v).
Proof. done. Qed.
Lemma keeps_with_error v : keeps_listeners (with_error v).
Proof. done. Qed.
Lemma keeps_with_buttons b t : keeps_listeners (with_buttons b t).
Proof. done. Qed.

Create HintDb wiring.
#[local] Hint Resolve wired_alter wired_close wired_open keeps_with_user
  keeps_with_pass keeps_with_error keeps_with_buttons : wiring.

Lemma step_wired (e : event) (st : state) :
  wired (modals st) (overlays st) ->
  wired (modals (step e st)) (overlays (step e st)).
Proof.
  intros W. destruct e; unfold_step; repeat case_match; simp_state;
    repeat match goal with
      | H : overlays ?s = _ |- _ => rewrite H in *
      end;
    auto 8 with wiring.
Qed.

Lemma run_wired (evs : list event) :
  wired (modals (run evs page_loaded)) (overlays (run evs page_loaded)).
Proof.
  apply (run_invariant (fun st => wired (modals st) (overlays st)));
    [|apply step_wired].
  split; [done|]. intros m Hm. by apply elem_of_nil in Hm.
Qed.

(** X12: over every sequence of events, the click handlers of a modal are
    registered exactly while its overlay is in the document: closing the
    modal takes both away together. *)
Theorem handlers_follow_overlay (evs : list event) (m : nat) (md : modal) :
  modals (run evs page_loaded) !! m = Some md ->
  submit_listener md = bool_decide (m ∈ overlays (run evs page_loaded))
  /\ cancel_listener md = bool_decide (m ∈ overlays (run evs page_loaded)).
Proof. intros L. by apply (run_wired evs). Qed.

Lemma handlers_follow_overlay_witness :
  let st := run [ClickDownload 1; KeyDown 0 Escape] page_loaded in
  submit_listener (without_listeners (new_modal (js "csv")))
  = bool_decide (0%nat ∈ overlays st)
  /\ cancel_listener (without_listeners (new_modal (js "csv")))
     = bool_decide (0%nat ∈ overlays st).
Proof.
  exact (handlers_follow_overlay [ClickDownload 1; KeyDown 0 Escape] 0
           (without_listeners (new_modal (js "csv"))) eq_refl).
Defined.

(** X13: as long as no entry of the log has built an element other than
    a line break, on an open modal whose buttons are enabled the keyboard
    does what the buttons do: Enter is a click on submit and Escape a
    click on cancel. *)
Theorem keyboard_matches_buttons (evs : list event) (m : nat) (md : modal) :
  let st := run evs page_loaded in
  inert_along evs page_loaded = true ->
  m ∈ overlays st ->
  modals st !! m = Some md ->
  (submit_disabled md = false ->
   step (KeyDown m Enter) st = step (ClickSubmit m) st)
  /\ (cancel_disabled md = false ->
      step (KeyDown m Escape) st = step (ClickCancel m) st).
Proof.
  intros st _ Hin L. destruct (proj1 (run_wired evs) m md L) as [Hs Hc].
  fold st in Hs, Hc. rewrite bool_decide_eq_true_2 in Hs, Hc by done.
  cbn [step keyHandler]. unfold attached. rewrite L.
  rewrite bool_decide_eq_true_2 by done. rewrite Hs, Hc.
  split; intros ->; reflexivity.
Qed.

Lemma keyboard_matches_buttons_witness :
  let st := run [ClickDownload 1; TypeUsername 0 (js "a")] page_loaded in
  (false = false -> step (KeyDown 0 Enter) st = step (ClickSubmit 0) st)
  /\ (false = false -> step (KeyDown 0 Escape) st = step (ClickCancel 0) st).
Proof.
  refine (keyboard_matches_buttons
            [ClickDownload 1; TypeUsername 0 (js "a")] 0
            (with_user (js "a") (new_modal (js "csv"))) eq_refl _ eq_refl).
  vm_compute. apply list_elem_of_here.
Defined.

(** ** Settlements *)

(** X14: whatever the outcome, the settlement of a request either closes
    its modal, with the success message as the last entry of the log, or
    leaves the overlays as they are with both buttons of its modal
    enabled and the submit button labelled Download again: no outcome
    leaves the modal open with its buttons disabled. The inline error is
    then empty in one case only, a failure response whose error member is
    truthy and converts to the empty string (the empty array, say). *)
Theorem settlement_closes_or_reenables (rq : request) (o : outcome)
    (st : state) (md : modal) :
  modals st !! rq_modal rq = Some md ->
  let st' := resume rq o st in
  ((rq_modal rq ∉ overlays st')
   /\ exists filename,
        last (chatBody st') = Some (Message bot (replace_newlines
                                                   (msg_downloaded filename))))
  \/ (overlays st' = overlays st
      /\ exists md', modals st' !! rq_modal rq = Some md'
           /\ submit_disabled md' = false
           /\ cancel_disabled md' = false
           /\ submit_text md' = js "Download"
           /\ (cred_error md' = [] ->
               exists status error,
                 o = Failure status (JsonValue (Some error))
                 /\ to_boolean error = true
                 /\ to_string error = [])).
Proof.
  intros L. cbn zeta. unfold resume, catch_block, closeModal.
  destruct o as [e|status [| |[error|]]|[bytes|e] disposition [x|]];
    try destruct (resolve_filename disposition (rq_format rq)) as [f|e'];
    try destruct (to_boolean error) eqn:B;
    simp_state.
  all: try (right; split; [reflexivity|];
            rewrite !list_lookup_alter_eq, L; cbn;
            eexists; split; [reflexivity|]; repeat split; cbn;
            first [ discriminate | intros E; eauto ]).
  left. split.
  - by intros [? _]%list_elem_of_filter.
  - eexists. by rewrite last_snoc.
Qed.

Lemma settlement_closes_or_reenables_witness :
  let o := Failure 401 (JsonValue (Some js_empty_array)) in
  let st' := resume the_request o in_flight in
  ((0%nat ∉ overlays st')
   /\ exists filename,
        last (chatBody st') = Some (Message bot (replace_newlines
                                                   (msg_downloaded filename))))
  \/ (overlays st' = overlays in_flight
      /\ exists md', modals st' !! 0%nat = Some md'
           /\ submit_disabled md' = false
           /\ cancel_disabled md' = false
           /\ submit_text md' = js "Download"
           /\ (cred_error md' = [] ->
               exists status error,
                 o = Failure status (JsonValue (Some error))
                 /\ to_boolean error = true
                 /\ to_string error = [])).
Proof.
  exact (settlement_closes_or_reenables the_request
           (Failure 401 (JsonValue (Some js_empty_array))) in_flight
           (Modal (js "csv") (js "a") (js "b") [] true true
                  (js "Downloading...") true true)
           eq_refl).
Defined.

(** ** The buttons of the modals *)

Lemma elem_of_delete_other {A} (l : list A) i x y :
  x ∈ l -> l !! i = Some y -> x <> y -> x ∈ delete i l.
Proof.
  revert i. induction l as [|z l IH]; intros i Hx Hi Hne.
  - by apply elem_of_nil in Hx.
  - destruct i as [|i]; cbn in *.
    + injection Hi as ->. apply elem_of_cons in Hx as [->|Hx]; done.
    + apply elem_of_cons in Hx as [->|Hx]; [apply list_elem_of_here|].
      apply list_elem_of_further. eauto.
Qed.

Lemma live_keep ms os pd k f :
  keeps_buttons f -> buttons_live ms os pd -> buttons_live (alter f k ms) os pd.
Proof.
  intros Hf Hl m md. rewrite list_lookup_alter. case_decide as E; [|eauto].
  subst k. destruct (ms !! m) as [md0|] eqn:L; [|done]. intros [= <-].
  destruct (Hf md0) as [-> ->]. eauto.
Qed.

Lemma live_detach ms os pd k :
  buttons_live ms os pd -> buttons_live ms (filter (λ o, o ≠ k) os) pd.
Proof. intros Hl m md L [_ Hin]%list_elem_of_filter. eauto. Qed.

Lemma live_disable ms os pd k t rq :
  rq_modal rq = k ->
  buttons_live ms os pd ->
  buttons_live (alter (with_buttons true t) k ms) os (pd ++ [rq]).
Proof.
  intros Hk Hl m md. rewrite list_lookup_alter. case_decide as E.
  - intros _ _ _. exists rq. split; [|congruence].
    apply elem_of_app. right. apply list_elem_of_here.
  - intros L Hin Hd. destruct (Hl m md L Hin Hd) as (rq' & Hrq & Hm).
    exists rq'. split; [|done]. apply elem_of_app. by left.
Qed.

Lemma live_open ms pd fmt :
  buttons_live ms [] pd ->
  buttons_live (ms ++ [new_modal fmt]) ([] ++ [length ms]) pd.
Proof.
  intros Hl m md L ->%list_elem_of_singleton.
  rewrite lookup_app_r, Nat.sub_diag in L by lia. by injection L as <-.
Qed.

Lemma live_settle_enable ms os pd i rq t f :
  buttons_live ms os pd -> pd !! i = Some rq ->
  buttons_live (alter (with_buttons false t) (rq_modal rq)
                      (alter f (rq_modal rq) ms)) os (delete i pd).
Proof.
  intros Hl Hi m md. destruct (decide (rq_modal rq = m)) as [<-|E].
  - rewrite !list_lookup_alter_eq. destruct (ms !! rq_modal rq); [|done].
    by intros [= <-].
  - rewrite !list_lookup_alter_ne by done.
    intros L Hin Hd. destruct (Hl m md L Hin Hd) as (rq' & Hrq & Hm).
    exists rq'. split; [|done].
    eapply elem_of_delete_other; eauto. congruence.
Qed.

Lemma live_settle_close ms os pd i rq f :
  buttons_live ms os pd -> pd !! i = Some rq ->
  buttons_live (alter f (rq_modal rq) ms)
               (filter (λ o, o ≠ rq_modal rq) os) (delete i pd).
Proof.
  intros Hl Hi m md L [Hne Hin]%list_elem_of_filter.
  rewrite list_lookup_alter_ne in L by done.
  intros Hd. destruct (Hl m md L Hin Hd) as (rq' & Hrq & Hm).
  exists rq'. split; [|done].
  eapply elem_of_delete_other; eauto. congruence.
Qed.

Lemma keepb_with_user v : keeps_buttons (with_user v).
Proof. done. Qed.
Lemma keepb_with_pass v : keeps_buttons (with_pass v).
Proof. done. Qed.
Lemma keepb_with_error v : keeps_buttons (with_error v).
Proof. done. Qed.
Lemma keepb_without_listeners : keeps_buttons without_listeners.
Proof. done. Qed.

Create HintDb buttons.
#[local] Hint Resolve live_keep live_detach live_disable live_open
  live_settle_enable live_settle_close keepb_with_user keepb_with_pass
  keepb_with_error keepb_without_listeners : buttons.

Lemma step_live (e : event) (st : state) :
  buttons_live (modals st) (overlays st) (pending st) ->
  buttons_live (modals (step e st)) (overlays (step e st)) (pending (step e st)).
Proof.
  intros W. destruct e; unfold_step; repeat case_match; simp_state;
    repeat match goal with
      | H : overlays ?s = _ |- _ => rewrite H in *
      end;
    auto 8 with buttons.
Qed.

(** X15: over every sequence of events, a modal in the document has a
    button disabled only while a request of that modal is in flight. *)
Theorem disabled_only_in_flight (evs : list event) (m : nat) (md : modal) :
  let st := run evs page_loaded in
  modals st !! m = Some md ->
  m ∈ overlays st ->
  submit_disabled md = true \/ cancel_disabled md = true ->
  exists rq, rq ∈ pending st /\ rq_modal rq = m.
Proof.
  intros st L Hin Hd.
  assert (W : buttons_live (modals st) (overlays st) (pending st)).
  { apply (run_invariant
             (fun s => buttons_live (modals s) (overlays s) (pending s)));
      [|apply step_live].
    intros k kd _ Hk. by apply elem_of_nil in Hk. }
  apply (W m md L Hin). destruct Hd as [-> | ->]; [done|apply orb_true_r].
Qed.

Lemma disabled_only_in_flight_witness :
  exists rq, rq ∈ pending in_flight /\ rq_modal rq = 0%nat.
Proof.
  refine (disabled_only_in_flight to_in_flight 0
            (Modal (js "csv") (js "a") (js "b") [] true true
                   (js "Downloading...") true true)
            eq_refl _ (or_introl eq_refl)).
  vm_compute. apply list_elem_of_here.
Defined.

(** ** The reset to the landing view *)

(** X16: the reset builds the same landing view whatever the page held
    (the welcome message and one download button, the home button hidden,
    the flag set), running it twice is running it once, and it touches
    nothing else: the modals, the overlays, the requests in flight and the
    effects stay as they are. *)
Theorem reset_rebuilds_the_view_only (st : state) :
  let st' := initReportChat st in
  initReportChat st' = st'
  /\ chatBody st' = [Message bot msg_welcome; ReportAction d_unset]
  /\ isLanding st' = true
  /\ homeBtn st' = Some d_none
  /\ modals st' = modals st
  /\ overlays st' = overlays st
  /\ pending st' = pending st
  /\ trace st' = trace st.
Proof.
  cbn zeta. unfold initReportChat. rewrite !home_display_eq.
  repeat split.
Qed.

(** Every settlement logs one message of the script, clears the landing
    flag and shows the home button. *)
Lemma resume_logs_one (rq : request) (o : outcome) (st : state) :
  exists text,
    chatBody (resume rq o st) = chatBody st ++ [Message bot text]
    /\ isLanding (resume rq o st) = false
    /\ home_visible (resume rq o st) = true.
Proof.
  unfold resume, catch_block, closeModal. repeat case_match; simp_state;
    eexists; repeat split.
Qed.

(** X17: the reset does not drop a request in flight: when it settles
    afterwards, whatever the outcome, its message is appended to the
    fresh landing log, the landing flag is cleared and the home button
    shown again. *)
Theorem settlement_after_reset (st : state) (i : nat) (rq : request)
    (o : outcome) :
  pending st !! i = Some rq ->
  let st' := step (Settle i o) (initReportChat st) in
  (exists text,
     chatBody st' = [Message bot msg_welcome; ReportAction d_unset;
                     Message bot text])
  /\ isLanding st' = false
  /\ home_visible st' = true.
Proof.
  intros Hi. cbn zeta.
  assert (P : pending (initReportChat st) !! i = Some rq).
  { unfold initReportChat. by rewrite !home_display_eq. }
  cbn [step]. rewrite P.
  destruct (resume_logs_one rq o
              (set_pending (delete i (pending (initReportChat st)))
                           (initReportChat st))) as (text & -> & -> & ->).
  split; [|done]. exists text.
  unfold initReportChat. by rewrite !home_display_eq.
Qed.

Lemma settlement_after_reset_witness :
  let st' := step (Settle 0 (Rejected (HostError (js "TypeError")
                                                 (js "Failed to fetch"))))
                  (initReportChat in_flight) in
  (exists text,
     chatBody st' = [Message bot msg_welcome; ReportAction d_unset;
                     Message bot text])
  /\ isLanding st' = false
  /\ home_visible st' = true.
Proof.
  exact (settlement_after_reset in_flight 0 the_request
           (Rejected (HostError (js "TypeError") (js "Failed to fetch")))
           eq_refl).
Defined.

(** ** The entry point *)

(** X18: a second click on the download button changes nothing: the
    first one hides the button, so the handler runs once. *)
Theorem download_click_runs_once (i : nat) (st : state) :
  step (ClickDownload i) (step (ClickDownload i) st)
  = step (ClickDownload i) st.
Proof.
  cbn [step]. destruct (chatBody st !! i) as [[|d]|] eqn:L;
    rewrite ?L; try done.
  destruct (shown d) eqn:S; [|by rewrite L, S].
  assert (chatBody (on_download_click i st) !! i = Some (ReportAction d_none))
    as ->; [|done].
  unfold on_download_click, openCredentialModal.
  repeat case_match; simp_state.
  all: apply lookup_app_l_Some, list_lookup_insert_eq;
    by apply lookup_lt_Some in L.
Qed.

Lemma entry_buttons_app l1 l2 :
  entry_buttons (l1 ++ l2) = entry_buttons l1 ++ entry_buttons l2.
Proof.
  induction l1 as [|[s h|d] l1 IH]; cbn; [done|done|by rewrite IH].
Qed.

Lemma entry_buttons_insert l i d0 d d' :
  l !! i = Some (ReportAction d0) ->
  entry_buttons l = [d] ->
  entry_buttons (<[i := ReportAction d']> l) = [d'].
Proof.
  revert i. induction l as [|[s h|d1] l IH]; intros i; [done| |].
  - destruct i as [|i]; [done|]. cbn. apply IH.
  - destruct i as [|i]; cbn.
    + by intros _ [= _ ->].
    + intros L [= _ E]. exfalso. clear IH. revert i L.
      induction l as [|[s' h'|d2] l' IH']; intros i L; [done| |done].
      destruct i; [done|]. cbn in E, L. eauto.
Qed.

Lemma entry_buttons_hide l d :
  entry_buttons l = [d] -> entry_buttons (hide_first_download_btn l) = [d_none].
Proof.
  induction l as [|[s h|d0] l IH]; cbn; [done|done|]. by intros [= _ ->].
Qed.

(** X19: over every sequence of events the log holds exactly one download
    button, and while the landing flag is set that button is displayed. *)
Theorem one_entry_point (evs : list event) :
  exists d, entry_buttons (chatBody (run evs page_loaded)) = [d]
    /\ (isLanding (run evs page_loaded) = true -> shown d = true).
Proof.
  apply (run_invariant
           (fun st => exists d, entry_buttons (chatBody st) = [d]
                        /\ (isLanding st = true -> shown d = true))).
  - by exists d_unset.
  - intros e s (d & Hd & Hl).
    destruct e; unfold_step; repeat case_match; simp_state;
      rewrite ?entry_buttons_app; cbn [entry_buttons]; rewrite ?app_nil_r;
      first [ by exists d
            | by exists d_unset
            | exists d_none; split; [|done];
              first [ eapply entry_buttons_insert; eassumption
                    | eapply entry_buttons_hide;
                      rewrite entry_buttons_app; cbn [entry_buttons];
                      rewrite app_nil_r; eassumption ] ].
Qed.

Lemma messages_app l1 l2 : messages (l1 ++ l2) = messages l1 ++ messages l2.
Proof.
  induction l1 as [|[s h|d] l1 IH]; cbn; [done|by rewrite IH|done].
Qed.


Lemma messages_hide l : messages (hide_first_download_btn l) = messages l.
Proof. induction l as [|[s h|d0] l IH]; cbn; [done|by rewrite IH|done]. Qed.



(** ** Typed commands *)

Lemma includes_app a n b : includes (a ++ n ++ b) n = true.
Proof.
  induction a as [|x a IH].
  - destruct (n ++ b) eqn:E; cbn [app includes]; rewrite <- ?E;
      by rewrite strip_prefix_here.
  - cbn [app includes]. by destruct (strip_prefix n (x :: a ++ n ++ b)).
Qed.

Lemma includes_inv s n : includes s n = true -> exists a b, s = a ++ n ++ b.
Proof.
  induction s as [|x s IH]; cbn [includes].
  - destruct (strip_prefix n []) as [b|] eqn:E; [|done].
    apply strip_prefix_app in E. by exists [], b.
  - destruct (strip_prefix n (x :: s)) as [b|] eqn:E.
    + apply strip_prefix_app in E. by exists [], b.
    + intros (a & b & ->)%IH. by exists (x :: a), b.
Qed.

Lemma trim_start_keeps a h n b :
  is_js_space h = false ->
  exists a', trim_start (a ++ (h :: n) ++ b) = a' ++ (h :: n) ++ b.
Proof.
  intros Hh. induction a as [|x a [a' IH]]; cbn.
  - rewrite Hh. by exists [].
  - destruct (is_js_space x); [by exists a'|by exists (x :: a)].
Qed.

(** trim keeps a stretch that neither starts nor ends with white space. *)
Lemma trim_keeps a n b x y :
  head n = Some x -> last n = Some y ->
  is_js_space x = false -> is_js_space y = false ->
  exists a' b', trim (a ++ n ++ b) = a' ++ n ++ b'.
Proof.
  intros Hx Hy Sx Sy. unfold trim.
  apply head_Some in Hx as [n' ->].
  destruct (trim_start_keeps a x n' b Sx) as [a' ->].
  apply last_Some in Hy as [n0 Hn].
  rewrite !rev_app_distr, <- app_assoc, Hn, rev_app_distr. cbn [rev app].
  destruct (trim_start_keeps (rev b) y (rev n0) (rev a') Sy) as [b' Hb].
  cbn [app] in Hb. rewrite Hb.
  exists a', (rev b').
  rewrite rev_app_distr. cbn [rev]. rewrite !rev_app_distr, !rev_involutive.
  cbn. by rewrite <- !app_assoc.
Qed.

Lemma trim_start_suffix s : exists p, s = p ++ trim_start s.
Proof.
  induction s as [|x s [p IH]]; cbn; [by exists []|].
  destruct (is_js_space x); [|by exists []].
  exists (x :: p). cbn. by f_equal.
Qed.

(** What trim returns stands in the string. *)
Lemma trim_infix s : exists p q, s = p ++ trim s ++ q.
Proof.
  unfold trim. destruct (trim_start_suffix s) as [p Hp].
  destruct (trim_start_suffix (rev (trim_start s))) as [q Hq].
  exists p, (rev q). rewrite <- rev_app_distr, <- Hq, rev_involutive. exact Hp.
Qed.

Lemma lower_d_not_space x : to_lower_unit x = 100 -> is_js_space x = false.
Proof.
  unfold to_lower_unit. destruct ((65 <=? x) && (x <=? 90)) eqn:E; intros H.
  - assert (x = 68) as -> by lia. reflexivity.
  - by subst x.
Qed.

Lemma download_word_edges w :
  toLowerCase w = js "download" ->
  exists x y, head w = Some x /\ last w = Some y
    /\ is_js_space x = false /\ is_js_space y = false.
Proof.
  unfold toLowerCase.
  destruct w as [|w1 [|w2 [|w3 [|w4 [|w5 [|w6 [|w7 [|w8 [|w9 w]]]]]]]]];
    try discriminate.
  intros [= H1 _ _ _ _ _ _ H8]. exists w1, w8.
  repeat split; by apply lower_d_not_space.
Qed.

(** The test of the send handler accepts a text that holds the word
    download in any mix of upper and lower case. *)
Lemma download_word_found pre w post :
  toLowerCase w = js "download" ->
  truthy (trim (pre ++ w ++ post)) = true
  /\ includes (toLowerCase (trim (pre ++ w ++ post))) (js "download") = true.
Proof.
  intros Hw. destruct (download_word_edges w Hw) as (x & y & Hx & Hy & Sx & Sy).
  destruct (trim_keeps pre w post x y Hx Hy Sx Sy) as (a & b & ->). split.
  - apply head_Some in Hx as [w' ->]. by destruct a.
  - unfold toLowerCase in *. rewrite !map_app, Hw. apply includes_app.
Qed.

(** X21: a text sent that holds the word download, in any mix of upper
    and lower case and wherever it stands, and that like the rest of the
    log builds no element other than a line break, opens a fresh modal for
    the format csv when none is open: the text is logged trimmed as a
    user message, then the announcement, the input is emptied, the landing
    flag cleared and the home button shown. *)
Theorem typed_download_opens_modal (st : state) (pre w post : jsstring) :
  toLowerCase w = js "download" ->
  userInput st = pre ++ w ++ post ->
  overlays st = [] ->
  let st' := step ClickSend st in
  log_inert st' = true ->
  overlays st' = [length (modals st)]
  /\ modals st' !! length (modals st) = Some (new_modal (js "csv"))
  /\ messages (chatBody st')
     = messages (chatBody st)
       ++ [(user, replace_newlines (trim (userInput st))); (bot, msg_opening)]
  /\ userInput st' = []
  /\ isLanding st' = false
  /\ home_visible st' = true.
Proof.
  intros Hw Hu Ho st' _. subst st'. cbn [step]. unfold on_send.
  destruct (download_word_found pre w post Hw) as [Ht Hi].
  rewrite <- Hu in Ht, Hi. rewrite Ht, Hi. cbn [negb].
  unfold openCredentialModal. simp_state. rewrite Ho. simp_state.
  repeat split.
  - by rewrite lookup_app_r, Nat.sub_diag by lia.
  - by rewrite messages_app, messages_hide, messages_app, <- app_assoc.
Qed.

Lemma typed_download_opens_modal_witness :
  let st := step (TypeInput (js "  please DownLoad it ")) page_loaded in
  let st' := step ClickSend st in
  overlays st' = [length (modals st)]
  /\ modals st' !! length (modals st) = Some (new_modal (js "csv"))
  /\ messages (chatBody st')
     = messages (chatBody st)
       ++ [(user, replace_newlines (trim (userInput st))); (bot, msg_opening)]
  /\ userInput st' = []
  /\ isLanding st' = false
  /\ home_visible st' = true.
Proof.
  exact (typed_download_opens_modal
           (step (TypeInput (js "  please DownLoad it ")) page_loaded)
           (js "  please ") (js "DownLoad") (js " it ")
           eq_refl eq_refl eq_refl eq_refl).
Defined.

(** X22: a text sent that is not blank and holds the word download in no
    mix of cases gets the help message and nothing else: the text and the
    help are logged, the input is emptied, and no modal opens. *)
Theorem typed_other_text_gets_help (st : state) :
  trim (userInput st) <> [] ->
  (forall pre w post, userInput st = pre ++ w ++ post ->
                      toLowerCase w <> js "download") ->
  step ClickSend st
  = addMessage msg_help bot
      (set_userInput [] (addMessage (trim (userInput st)) user st)).
Proof.
  intros Hne Hno. cbn [step]. unfold on_send.
  rewrite truthy_nonempty by done. cbn [negb].
  destruct (includes (toLowerCase (trim (userInput st))) (js "download"))
    eqn:E; [|done].
  exfalso. apply includes_inv in E as (a & b & E). unfold toLowerCase in E.
  apply map_eq_app in E as (pa & r & Et & Ha & Er).
  apply map_eq_app in Er as (w & pb & -> & Hw & Hb).
  destruct (trim_infix (userInput st)) as (p & q & Hs).
  rewrite Et in Hs.
  apply (Hno (p ++ pa) w (pb ++ q)); [|exact Hw].
  rewrite Hs at 1. by rewrite <- !app_assoc.
Qed.

Lemma typed_other_text_gets_help_witness :
  let st := step (TypeInput (js " hello ")) page_loaded in
  step ClickSend st
  = addMessage msg_help bot
      (set_userInput [] (addMessage (trim (userInput st)) user st)).
Proof.
  apply typed_other_text_gets_help.
  - vm_compute. discriminate.
  - intros pre w post H Hw.
    apply (f_equal length) in H, Hw. unfold toLowerCase in Hw.
    rewrite !length_app in H. rewrite length_map in Hw.
    change (length (js "download")) with 8%nat in Hw.
    change (length (userInput _)) with 7%nat in H. lia.
Defined.

(** ** Messages and downloads *)

(** X23: a message whose text holds none of <, &, carriage return and
    NUL is appended as one entry of the class of its sender whose markup
    reads as the text itself, each line feed a br element. *)
Theorem plain_message_renders_literally (content : jsstring) (s : sender)
    (st : state) :
  Forall (fun c => c <> c_lt /\ data_special c = false) content ->
  exists markup,
    chatBody (addMessage content s st) = chatBody st ++ [Message s markup]
    /\ tokenize Data markup = Some (literal_tokens content).
Proof.
  intros H. exists (replace_newlines content). split; [reflexivity|].
  induction H as [|c t [Hlt Hsp] _ IH]; [reflexivity|].
  unfold replace_newlines, literal_tokens in *. cbn [flat_map].
  destruct (c =? c_newline) eqn:En.
  - rewrite tokenize_br_markup, IH. reflexivity.
  - cbn [app tokenize tstep]. rewrite Hsp.
    apply N.eqb_neq in Hlt. rewrite Hlt, IH. reflexivity.
Qed.

Lemma plain_message_renders_literally_witness :
  let content := js "line > one" ++ [c_newline] ++ js "line two" in
  exists markup,
    chatBody (addMessage content bot page_loaded)
    = chatBody page_loaded ++ [Message bot markup]
    /\ tokenize Data markup = Some (literal_tokens content).
Proof.
  apply plain_message_renders_literally.
  repeat constructor; discriminate.
Defined.

(** X24: when a request in flight settles with a successful response
    whose body is read, whose name resolves and whose click returns, the
    effects are, in this order, the creation of one object URL from the
    bytes, the click on an anchor with that URL and the resolved name, and
    the revocation of that URL; the anchor is gone, the modal is closed,
    the request is no longer in flight, and the last message of the log
    names the file. *)
Theorem successful_download (st : state) (i : nat) (rq : request)
    (bytes : list N) (disposition : option jsstring) (filename : jsstring) :
  pending st !! i = Some rq ->
  resolve_filename disposition (rq_format rq) = Normal filename ->
  let st' := step (Settle i (Success (Normal bytes) disposition None)) st in
  trace st' = trace st ++ [CreateObjectURL (urls st) bytes;
                           AnchorClick (urls st) filename;
                           RevokeObjectURL (urls st)]
  /\ anchors st' = filter (λ a, a.1 ≠ urls st) (anchors st)
  /\ (rq_modal rq ∉ overlays st')
  /\ pending st' = delete i (pending st)
  /\ last (chatBody st')
     = Some (Message bot (replace_newlines (msg_downloaded filename))).
Proof.
  intros Hi Hr. cbn [step]. rewrite Hi. unfold resume, closeModal.
  simp_state. rewrite Hr. simp_state. repeat split.
  - by rewrite <- !app_assoc.
  - rewrite filter_app. cbn.
    rewrite decide_False by (by intros ?). by rewrite app_nil_r.
  - by intros [? _]%list_elem_of_filter.
  - by rewrite last_snoc.
Qed.

Lemma successful_download_witness :
  let disposition := Some (js "attachment; filename=sales.csv") in
  let st' := step (Settle 0 (Success (Normal [80; 75]) disposition None))
                  in_flight in
  trace st' = trace in_flight ++ [CreateObjectURL (urls in_flight) [80; 75];
                                  AnchorClick (urls in_flight) (js "sales.csv");
                                  RevokeObjectURL (urls in_flight)]
  /\ anchors st' = filter (λ a, a.1 ≠ urls in_flight) (anchors in_flight)
  /\ (rq_modal the_request ∉ overlays st')
  /\ pending st' = delete 0%nat (pending in_flight)
  /\ last (chatBody st')
     = Some (Message bot (replace_newlines (msg_downloaded (js "sales.csv")))).
Proof.
  exact (successful_download in_flight 0 the_request [80; 75]
           (Some (js "attachment; filename=sales.csv")) (js "sales.csv")
           eq_refl eq_refl).
Defined.

(** * The home button and the session state of the design *)


















(** * The resolver on a malformed extended form *)

(** C1: on a header whose extended form carries a malformed escape the
    extended pattern matches first and wins, but no name comes back: the
    value captured has no percent-decoding, decodeURIComponent throws, and
    the resolver returns neither a decoded name nor null, so that the
    transaction substitutes no default for either format and a successful
    response ends in the catch block, with no object URL, no click and the
    failure message in the log. *)
Theorem malformed_extended_value_is_not_resolved :
  group1 (String_match re_extended hdr_malformed) = Some (js "%E0%A4%A.csv")
  /\ decodeURIComponent (js "%E0%A4%A.csv") = Throw URIError
  /\ resolve_filename (Some hdr_malformed) (js "csv") = Throw URIError
  /\ resolve_filename (Some hdr_malformed) (js "xlsx") = Throw URIError
  /\ let st := step (Settle 0 (Success (Normal [80; 75]) (Some hdr_malformed)
                                       None)) in_flight in
     trace st = trace in_flight ++ [ConsoleError msg_console_error]
     /\ last (chatBody st) = Some (Message bot msg_failed).
Proof. vm_compute. repeat split. Qed.
